(** * projen tasks: the [Task] entity and its shell rendering

    A shallow embedding of [src/tasks/task.ts].  A [Task] object has only
    [readonly] fields; two of them point to mutable JavaScript values (the
    [_steps] array and the [_env] object), so the embedding keeps those two
    in an explicit heap and lets every method transform the heap.  The
    elements of [_steps] are objects too; no method writes to one, so the
    heap has the arrays by their contents, and a store with the step
    objects apart ([ByRef]) is used where a caller holds a step.  The
    renderer [toShellCommand] is recursive through the registry and can
    recurse for ever on a cyclic task graph: it is embedded with a recursion
    budget and a three-valued outcome. *)

From Stdlib Require Import Ascii NArith Lia.
From stdpp Require Import gmap strings list fin_maps sorting.

(** ** JavaScript values used by the code *)

(** The character [U+0022], written through its code so that rendered
    strings can be spelled out in examples. *)
Definition dquote : string := String (ascii_of_nat 34) EmptyString.

(** [if (x) { ... x ... }] on a value of type [string | undefined]: the
    branch is taken with the string, unless the value is [undefined] or the
    empty string. *)
Definition truthy (x : option string) : option string :=
  match x with
  | Some (String c s) => Some (String c s)
  | Some EmptyString => None
  | None => None
  end.

(** [Array.prototype.join] on an array of strings. *)
Fixpoint join (sep : string) (a : list string) : string :=
  match a with
  | [] => EmptyString
  | [x] => x
  | x :: a' => x +:+ sep +:+ join sep a'
  end.

(** [Array.prototype.push], [unshift] and [shift], as they act on the
    contents of the array. *)
Definition push {A} (x : A) (a : list A) : list A := a ++ [x].
Definition unshift {A} (x : A) (a : list A) : list A := x :: a.
Definition shift {A} (a : list A) : list A := tail a.

(** [while (a.length) { a.shift(); }]: the loop runs while the array has
    an element, and each iteration leaves [shift a], the tail [a']. *)
Fixpoint shift_while_length {A} (a : list A) : list A :=
  match a with
  | [] => []
  | _ :: a' => shift_while_length a'
  end.

(** *** Plain objects used as string maps

    An object [{ [name: string]: string }] is the list of its own
    properties in creation order.  Enumeration ([Object.entries], object
    spread) follows [OrdinaryOwnPropertyKeys]: the keys that are array
    indices come first, in ascending numeric order, then the other keys in
    creation order. *)
Abbreviation JsObject := (list (string * string)).

Definition digit (c : ascii) : option N :=
  let n := N_of_ascii c in
  if ((48 <=? n) && (n <=? 57))%N then Some (n - 48)%N else None.

Fixpoint digits (s : string) (acc : N) : option N :=
  match s with
  | EmptyString => Some acc
  | String c s' =>
      match digit c with
      | Some d => digits s' (10 * acc + d)%N
      | None => None
      end
  end.

(** A key is an array index when it is the canonical decimal spelling of an
    integer below [2^32 - 1]. *)
Definition array_index (k : string) : option N :=
  match k with
  | EmptyString => None
  | String c rest =>
      if Ascii.eqb c "0"%char && negb (String.eqb rest EmptyString) then None
      else match digits k 0 with
           | Some n => if (n <? 2 ^ 32 - 1)%N then Some n else None
           | None => None
           end
  end.

(** [o[k]]. *)
Fixpoint obj_get (k : string) (o : JsObject) : option string :=
  match o with
  | [] => None
  | (k', v') :: o' => if decide (k' = k) then Some v' else obj_get k o'
  end.

(** [CreateDataProperty]: an existing key keeps its place and takes the new
    value, a new key is added last. *)
Fixpoint obj_define (k v : string) (o : JsObject) : JsObject :=
  match o with
  | [] => [(k, v)]
  | (k', v') :: o' =>
      if decide (k' = k) then (k, v) :: o' else (k', v') :: obj_define k v o'
  end.

Definition index_le (x y : N * (string * string)) : Prop := (x.1 ≤ y.1)%N.

Global Instance index_le_dec : RelDecision index_le.
Proof. intros x y. unfold index_le. apply _. Defined.

Definition index_properties (o : JsObject) : list (N * (string * string)) :=
  omap (λ kv, (λ i, (i, kv)) <$> array_index kv.1) o.

Definition named_properties (o : JsObject) : JsObject :=
  filter (λ kv, array_index kv.1 = None) o.

(** [Object.entries(o)]. *)
Definition entries (o : JsObject) : list (string * string) :=
  (snd <$> merge_sort index_le (index_properties o)) ++ named_properties o.

Definition define_entry (target : JsObject) (kv : string * string) : JsObject :=
  obj_define kv.1 kv.2 target.

(** [{ ...target, ...src }] continued on an object under construction:
    every enumerated property of [src] is defined on the target. *)
Definition spread (src target : JsObject) : JsObject :=
  foldl define_entry target (entries src).

(** Objects have one property per key. *)
Definition obj_wf (o : JsObject) : Prop := NoDup o.*1.

(** ** The data model *)

Inductive TaskCategory := BUILD | TEST | RELEASE | MAINTAIN | MISC.

Definition TaskCategory_value (c : TaskCategory) : string :=
  match c with
  | BUILD => "00.build"
  | TEST => "10.test"
  | RELEASE => "20.release"
  | MAINTAIN => "30.maintain"
  | MISC => "99.misc"
  end.

(** Modelled from the spec: [TaskStepOptions] of [./model], which is not
    among the sources.  The spec gives every step an optional [name] (a
    label echoed before execution) and an optional step-local environment
    override map; [Task.push] passes both. *)
Module TaskStepOptions.
Record t := mk { name : option string; env : option JsObject }.
(** The default argument [{ }]. *)
Definition empty : t := {| name := None; env := None |}.
End TaskStepOptions.

(** Modelled from the spec: [TaskStep] of [./model], the step options
    extended with [exec] and [execTask].  The record is what a step object
    holds; it keeps both fields optional, as the renderer tests each of them
    on its own.  The fields are [readonly] to the type checker only: at run
    time a step is an ordinary object, and [ByRef] below has the steps as
    objects of their own. *)
Module TaskStep.
Record t := mk {
  name : option string;
  env : option JsObject;
  exec : option string;
  execTask : option string;
}.
Global Instance eq_dec : EqDecision t.
Proof. solve_decision. Defined.
End TaskStep.

(** References to the mutable values of the heap. *)
Definition loc : Type := nat.

(** The arrays of steps, by their contents, and the objects used as maps.
    An object has the ordinary prototype, [Object.prototype], unless it is
    [bare]: made without a prototype, as by [Object.create(null)]. *)
Record heap := Heap {
  arrays : gmap loc (list TaskStep.t);
  objects : gmap loc JsObject;
  bare : gset loc;
}.

Definition arr (h : heap) (l : loc) : list TaskStep.t := default [] (arrays h !! l).
Definition obj (h : heap) (l : loc) : JsObject := default [] (objects h !! l).

Definition set_arr (l : loc) (a : list TaskStep.t) (h : heap) : heap :=
  {| arrays := <[l := a]> (arrays h); objects := objects h; bare := bare h |}.
Definition set_obj (l : loc) (o : JsObject) (h : heap) : heap :=
  {| arrays := arrays h; objects := <[l := o]> (objects h); bare := bare h |}.

Definition alloc_arr (a : list TaskStep.t) (h : heap) : loc * heap :=
  let l := fresh (dom (arrays h)) in (l, set_arr l a h).
(** An object literal: a new object, with the ordinary prototype. *)
Definition alloc_obj (o : JsObject) (h : heap) : loc * heap :=
  let l := fresh (dom (objects h)) in
  (l, {| arrays := arrays h; objects := <[l := o]> (objects h); bare := bare h ∖ {[l]} |}).

(** [TaskOptions]; [env] is a reference, the constructor keeps it. *)
Record TaskOptions := {
  opt_image : option string;
  opt_description : option string;
  opt_category : option TaskCategory;
  opt_env : option loc;
  opt_condition : option string;
  opt_exec : option string;
}.

(** The manifest record built by [_renderSpec]; [env] and [steps] are the
    task's own object and array, not copies. *)
Record TaskSpec := {
  spec_name : string;
  spec_category : option TaskCategory;
  spec_description : option string;
  spec_env : loc;
  spec_steps : loc;
  spec_condition : option string;
}.

(** [CommitOptions]: the step options, extended. *)
Module CommitOptions.
Record t := mk {
  name : option string;
  env : option JsObject;
  username : option string;
  email : option string;
  add : option bool;
}.
(** The keys of the options that the step type has.  [exec] spreads the
    whole options object into the step; [username], [email] and [add] are
    then keys of the step object that its type does not declare and that
    nothing in the file reads. *)
Definition step_options (options : t) : TaskStepOptions.t :=
  {| TaskStepOptions.name := name options; TaskStepOptions.env := env options |}.
End CommitOptions.

Module Task.

Record t := mk {
  name : string;
  description : option string;
  category : option TaskCategory;
  condition : option string;
  _steps : loc;
  _env : loc;
}.

(** [exec(command, options)]: [this._steps.push({ exec: command, ...options })]. *)
Definition exec (command : string) (options : TaskStepOptions.t) (this : t) (h : heap) : heap :=
  set_arr (_steps this)
    (push {| TaskStep.name := TaskStepOptions.name options;
             TaskStep.env := TaskStepOptions.env options;
             TaskStep.exec := Some command;
             TaskStep.execTask := None |}
          (arr h (_steps this))) h.

(** [prepend(shell, options)]: [this._steps.unshift({ exec: shell, ...options })]. *)
Definition prepend (shell : string) (options : TaskStepOptions.t) (this : t) (h : heap) : heap :=
  set_arr (_steps this)
    (unshift {| TaskStep.name := TaskStepOptions.name options;
                TaskStep.env := TaskStepOptions.env options;
                TaskStep.exec := Some shell;
                TaskStep.execTask := None |}
             (arr h (_steps this))) h.

(** [execTask(subtask, options)]: the step keeps the subtask's name. *)
Definition execTask (subtask : t) (options : TaskStepOptions.t) (this : t) (h : heap) : heap :=
  set_arr (_steps this)
    (push {| TaskStep.name := TaskStepOptions.name options;
             TaskStep.env := TaskStepOptions.env options;
             TaskStep.exec := None;
             TaskStep.execTask := Some (name subtask) |}
          (arr h (_steps this))) h.

(** [reset(command?)]. *)
Definition reset (command : option string) (this : t) (h : heap) : heap :=
  let h1 := set_arr (_steps this) (shift_while_length (arr h (_steps this))) h in
  match truthy command with
  | Some c => exec c TaskStepOptions.empty this h1
  | None => h1
  end.

(** [env(name, value)]: [this._env[name] = value].  The assignment gives
    the object the property, or the property its new value, with one
    exception: for the key [__proto__], on an object that has the ordinary
    prototype and no own property of that name, it reaches the accessor of
    [Object.prototype], which ignores a string. *)
Definition env (k v : string) (this : t) (h : heap) : heap :=
  if decide (k = "__proto__" ∧ obj_get k (obj h (_env this)) = None ∧ _env this ∉ bare h)
  then h
  else set_obj (_env this) (obj_define k v (obj h (_env this))) h.

(** [get steps()]: [[...this._steps]], a new array with the same elements. *)
Definition steps (this : t) (h : heap) : loc * heap :=
  alloc_arr (arr h (_steps this)) h.

(** [_renderSpec()]. *)
Definition _renderSpec (this : t) : TaskSpec :=
  {| spec_name := name this;
     spec_category := category this;
     spec_description := description this;
     spec_env := _env this;
     spec_steps := _steps this;
     spec_condition := condition this |}.

(** The constructor. *)
Definition new (nm : string) (props : TaskOptions) (h : heap) : t * heap :=
  let '(e, h1) :=
    match opt_env props with
    | Some e => (e, h)
    | None => alloc_obj [] h
    end in
  let '(s, h2) := alloc_arr [] h1 in
  let this := {| name := nm;
                 description := opt_description props;
                 category := opt_category props;
                 condition := opt_condition props;
                 _steps := s;
                 _env := e |} in
  match truthy (opt_exec props) with
  | Some c => (this, exec c TaskStepOptions.empty this h2)
  | None => (this, h2)
  end.

(** The array [commands] of [commit(message, options)]. *)
Definition commit_commands (message : string) (options : CommitOptions.t) : list string :=
  let commands1 :=
    match truthy (CommitOptions.username options) with
    | Some u => push ("git config user.name " +:+ dquote +:+ u +:+ dquote) []
    | None => []
    end in
  let commands2 :=
    match truthy (CommitOptions.email options) with
    | Some e => push ("git config user.email " +:+ dquote +:+ e +:+ dquote) commands1
    | None => commands1
    end in
  let add := if default true (CommitOptions.add options) then "-a" else EmptyString in
  push ("git commit " +:+ add +:+ " -m " +:+ dquote +:+ message +:+ dquote) commands2.

(** [commit(message, options)]. *)
Definition commit (message : string) (options : CommitOptions.t) (this : t) (h : heap) : heap :=
  exec (join " && " (commit_commands message options))
       (CommitOptions.step_options options) this h.

End Task.

(** [TaskArtifact] and [artifact(directory)]. *)
Module TaskArtifact.
Record t := mk { directory : string; task : Task.t }.
End TaskArtifact.

Definition artifact (directory : string) (this : Task.t) : TaskArtifact.t :=
  {| TaskArtifact.directory := directory; TaskArtifact.task := this |}.

(** A call of one of the methods that change a task. *)
Inductive call :=
  | CallReset (command : option string)
  | CallExec (command : string) (options : TaskStepOptions.t)
  | CallPrepend (shell : string) (options : TaskStepOptions.t)
  | CallExecTask (subtask : Task.t) (options : TaskStepOptions.t)
  | CallEnv (name value : string)
  | CallCommit (message : string) (options : CommitOptions.t).

Definition run (this : Task.t) (h : heap) (c : call) : heap :=
  match c with
  | CallReset command => Task.reset command this h
  | CallExec command options => Task.exec command options this h
  | CallPrepend shell options => Task.prepend shell options this h
  | CallExecTask subtask options => Task.execTask subtask options this h
  | CallEnv name value => Task.env name value this h
  | CallCommit message options => Task.commit message options this h
  end.

(** Modelled from the spec: the registry [Tasks] of [./tasks], which is not
    among the sources.  The renderer uses its [tryFind(name)], which answers
    a task or [undefined] and never throws, and its base environment [env].
    Every task of a registry holds that registry in its [tasks] field, so
    the registry is given once to the renderer. *)
Module Tasks.
Record t := mk { _tasks : gmap string Task.t; env : JsObject }.
Definition tryFind (tasks : t) (name : string) : option Task.t := _tasks tasks !! name.
End Tasks.

(** ** Rendering *)

(** What a call does: it returns a value, throws [new Error(msg)], or is
    still recursing when the budget is spent. *)
Inductive outcome (A : Type) : Type :=
  | Return (a : A)
  | Error (msg : string)
  | OutOfFuel.
Arguments Return {A} a.
Arguments Error {A} msg.
Arguments OutOfFuel {A}.

Global Instance outcome_bind : MBind outcome := λ A B k m,
  match m with
  | Return a => k a
  | Error msg => Error msg
  | OutOfFuel => OutOfFuel
  end.

(** [for (const x of a) { acc = body(acc, x) }], stopping at the first
    iteration that does not complete. *)
Fixpoint for_of {A B} (body : B → A → outcome B) (acc : B) (a : list A) : outcome B :=
  match a with
  | [] => Return acc
  | x :: a' => acc' ← body acc x ; for_of body acc' a'
  end.

(** [`( ${c} )`]. *)
Definition group (c : string) : string := "( " +:+ c +:+ " )".

(** [`${k}="${v}"; `]. *)
Definition assignment (kv : string * string) : string :=
  kv.1 +:+ "=" +:+ dquote +:+ kv.2 +:+ dquote +:+ "; ".

Section render.

Context (h : heap) (tasks : Tasks.t).

(** The body of the loop over the steps; [render] is the recursive call
    [subtask.toShellCommand()]. *)
Definition step_commands (render : Task.t → outcome string)
    (cmd : list string) (step : TaskStep.t) : outcome (list string) :=
  let cmd1 :=
    match truthy (TaskStep.name step) with
    | Some n => push ("echo " +:+ n) cmd
    | None => cmd
    end in
  let cmd2 :=
    match truthy (TaskStep.exec step) with
    | Some c => push c cmd1
    | None => cmd1
    end in
  match truthy (TaskStep.execTask step) with
  | Some n =>
      match Tasks.tryFind tasks n with
      | None => Error ("unable to resolve subtask " +:+ n)
      | Some subtask => s ← render subtask ; Return (push (group s) cmd2)
      end
  | None => Return cmd2
  end.

(** [cmd.map(c => `( ${c} )`).join(' && ')]. *)
Definition allCommands (cmd : list string) : string :=
  join " && " (group <$> cmd).

Definition withCondition (this : Task.t) (cmd : list string) : string :=
  match truthy (Task.condition this) with
  | Some c => "! ( " +:+ c +:+ " ) || ( " +:+ allCommands cmd +:+ " )"
  | None => allCommands cmd
  end.

(** [{ ...this.tasks.env, ...this._env }]. *)
Definition merged_env (this : Task.t) : JsObject :=
  spread (obj h (Task._env this)) (spread (Tasks.env tasks) []).

(** The array [lines]: one element is pushed per entry of the merged map. *)
Definition lines (this : Task.t) : list string :=
  assignment <$> entries (merged_env this).

(** [toShellCommand()].  The loop reads [this.steps], a copy whose
    contents are those of [this._steps] (lemma [steps_contents] below);
    [fuel] bounds the depth of nested calls. *)
Fixpoint toShellCommand (fuel : nat) (this : Task.t) : outcome string :=
  match fuel with
  | 0 => OutOfFuel
  | S fuel' =>
      cmd ← for_of (step_commands (toShellCommand fuel')) [] (arr h (Task._steps this)) ;
      Return ("( " +:+ join EmptyString (lines this) +:+ " " +:+ withCondition this cmd +:+ " )")
  end.

End render.

(** The array [cmd] when the loop of a call with budget [fuel] is over. *)
Definition cmd_array (h : heap) (tasks : Tasks.t) (fuel : nat) (this : Task.t)
    : outcome (list string) :=
  match fuel with
  | 0 => OutOfFuel
  | S fuel' =>
      for_of (step_commands tasks (toShellCommand h tasks fuel')) [] (arr h (Task._steps this))
  end.



(** ** Step objects

    The arrays of a heap hold the steps as values.  That is all the methods
    of a task and its renderer can tell: none of them writes to a step once
    it is in the array.  A caller that is handed a step can tell more: the
    elements of [_steps], and of every copy of it, are references to the
    object literals made by [exec], [prepend] and [execTask], and these are
    ordinary objects.  A store keeps the step objects apart from the arrays
    that refer to them. *)
Module ByRef.

Definition ref := nat.

Record store := Store {
  step_objects : gmap ref TaskStep.t;
  step_arrays : gmap loc (list ref);
  env_objects : gmap loc JsObject;
  bare_objects : gset loc;
}.

Definition elems (s : store) (l : loc) : list ref := default [] (step_arrays s !! l).

Definition set_elems (l : loc) (rs : list ref) (s : store) : store :=
  {| step_objects := step_objects s;
     step_arrays := <[l := rs]> (step_arrays s);
     env_objects := env_objects s;
     bare_objects := bare_objects s |}.

Definition set_step (p : ref) (step : TaskStep.t) (s : store) : store :=
  {| step_objects := <[p := step]> (step_objects s);
     step_arrays := step_arrays s;
     env_objects := env_objects s;
     bare_objects := bare_objects s |}.

(** An object literal [{ exec: command, ...options }]: a new step object. *)
Definition alloc_step (step : TaskStep.t) (s : store) : ref * store :=
  let p := fresh (dom (step_objects s)) in (p, set_step p step s).

(** The steps that the elements [rs] of an array refer to. *)
Definition read (s : store) (rs : list ref) : list TaskStep.t :=
  omap (λ p : ref, step_objects s !! p) rs.

(** The heap that a store is to a reader: every element of every array
    read through its reference. *)
Definition view (s : store) : heap :=
  {| arrays := fmap (M := gmap loc) (read s) (step_arrays s);
     objects := env_objects s;
     bare := bare_objects s |}.

(** Every element of every array is a step object of the store. *)
Definition wf (s : store) : Prop :=
  map_Forall (λ _ rs, Forall (λ p, is_Some (step_objects s !! p)) rs) (step_arrays s).

(** [exec(command, options)]: [this._steps.push({ exec: command, ...options })]. *)
Definition exec (command : string) (options : TaskStepOptions.t) (this : Task.t) (s : store) : store :=
  let '(p, s1) :=
    alloc_step {| TaskStep.name := TaskStepOptions.name options;
                  TaskStep.env := TaskStepOptions.env options;
                  TaskStep.exec := Some command;
                  TaskStep.execTask := None |} s in
  set_elems (Task._steps this) (push p (elems s1 (Task._steps this))) s1.

(** [prepend(shell, options)]: [this._steps.unshift({ exec: shell, ...options })]. *)
Definition prepend (shell : string) (options : TaskStepOptions.t) (this : Task.t) (s : store) : store :=
  let '(p, s1) :=
    alloc_step {| TaskStep.name := TaskStepOptions.name options;
                  TaskStep.env := TaskStepOptions.env options;
                  TaskStep.exec := Some shell;
                  TaskStep.execTask := None |} s in
  set_elems (Task._steps this) (unshift p (elems s1 (Task._steps this))) s1.

(** [execTask(subtask, options)]. *)
Definition execTask (subtask : Task.t) (options : TaskStepOptions.t) (this : Task.t) (s : store) : store :=
  let '(p, s1) :=
    alloc_step {| TaskStep.name := TaskStepOptions.name options;
                  TaskStep.env := TaskStepOptions.env options;
                  TaskStep.exec := None;
                  TaskStep.execTask := Some (Task.name subtask) |} s in
  set_elems (Task._steps this) (push p (elems s1 (Task._steps this))) s1.

(** [reset(command?)]. *)
Definition reset (command : option string) (this : Task.t) (s : store) : store :=
  let s1 := set_elems (Task._steps this) (shift_while_length (elems s (Task._steps this))) s in
  match truthy command with
  | Some c => exec c TaskStepOptions.empty this s1
  | None => s1
  end.

(** [env(name, value)]: no step is involved. *)
Definition env (k v : string) (this : Task.t) (s : store) : store :=
  let o := default [] (env_objects s !! Task._env this) in
  if decide (k = "__proto__" ∧ obj_get k o = None ∧ Task._env this ∉ bare_objects s)
  then s
  else {| step_objects := step_objects s;
          step_arrays := step_arrays s;
          env_objects := <[Task._env this := obj_define k v o]> (env_objects s);
          bare_objects := bare_objects s |}.

(** [commit(message, options)]. *)
Definition commit (message : string) (options : CommitOptions.t) (this : Task.t) (s : store) : store :=
  exec (join " && " (Task.commit_commands message options))
       (CommitOptions.step_options options) this s.

(** [get steps()]: [[...this._steps]], a new array whose elements are the
    elements of [_steps], that is, the same step objects. *)
Definition steps (this : Task.t) (s : store) : loc * store :=
  let l := fresh (dom (step_arrays s)) in (l, set_elems l (elems s (Task._steps this)) s).

(** What the holder of an array [r] of steps can do with it.  A change of
    the array itself ([r.push(x)], [r.pop()], [r.splice(..)], [r[i] = x],
    [r.length = n]) gives it new elements, among the references that the
    holder has.  An assignment to fields of an element ([r[i].exec = c],
    [r[i].name = n], [delete r[i].execTask]) changes the step object that
    the element refers to; when [r] has no element at [i] the assignment
    throws and nothing changes. *)
Inductive action :=
  | SetElements (f : list ref → list ref)
  | WriteStep (i : nat) (f : TaskStep.t → TaskStep.t).

Definition act (r : loc) (s : store) (a : action) : store :=
  match a with
  | SetElements f => set_elems r (f (elems s r)) s
  | WriteStep i f =>
      match elems s r !! i with
      | Some p =>
          match step_objects s !! p with
          | Some step => set_step p (f step) s
          | None => s
          end
      | None => s
      end
  end.

(** A store with the given step objects and arrays, and no environment. *)
Definition store_of (steps : list (ref * TaskStep.t)) (arrs : list (loc * list ref)) : store :=
  {| step_objects := list_to_map steps;
     step_arrays := list_to_map arrs;
     env_objects := ∅;
     bare_objects := ∅ |}.

End ByRef.

(** The step records built by [exec(c)] and by [execTask] with the default
    options. *)
Definition inline (c : string) : TaskStep.t :=
  {| TaskStep.name := None; TaskStep.env := None;
     TaskStep.exec := Some c; TaskStep.execTask := None |}.
Definition subtask (n : string) : TaskStep.t :=
  {| TaskStep.name := None; TaskStep.env := None;
     TaskStep.exec := None; TaskStep.execTask := Some n |}.

(** The assignment [step.exec = c] to a step object. *)
Definition with_exec (c : string) (step : TaskStep.t) : TaskStep.t :=
  {| TaskStep.name := TaskStep.name step; TaskStep.env := TaskStep.env step;
     TaskStep.exec := Some c; TaskStep.execTask := TaskStep.execTask step |}.

(** A step whose only fragment is its inline command [c]. *)
Definition inline_step (step : TaskStep.t) (c : string) : Prop :=
  truthy (TaskStep.name step) = None ∧
  truthy (TaskStep.exec step) = Some c ∧
  truthy (TaskStep.execTask step) = None.

(** The fragment pushed for the label of a step. *)
Definition echo (name : option string) : list string :=
  match truthy name with
  | Some n => ["echo " +:+ n]
  | None => []
  end.

(** Two steps that differ at most in their step-local environment. *)
Definition same_commands (s s' : TaskStep.t) : Prop :=
  TaskStep.name s = TaskStep.name s' ∧
  TaskStep.exec s = TaskStep.exec s' ∧
  TaskStep.execTask s = TaskStep.execTask s'.

(** Two heaps in which a task has the same environment and steps that
    differ at most in their step-local environments. *)
Definition same_task (h h' : heap) (t : Task.t) : Prop :=
  obj h (Task._env t) = obj h' (Task._env t) ∧
  Forall2 same_commands (arr h (Task._steps t)) (arr h' (Task._steps t)).

(** The fragment pushed for the inline command of a step. *)
Definition command (exec : option string) : list string :=
  match truthy exec with
  | Some c => [c]
  | None => []
  end.

(** ** The task graph *)

(** [t] has a step that runs the registered task [u]. *)
Definition references (h : heap) (tasks : Tasks.t) (t u : Task.t) : Prop :=
  ∃ step n, step ∈ arr h (Task._steps t) ∧
            truthy (TaskStep.execTask step) = Some n ∧
            Tasks.tryFind tasks n = Some u.

(** [t] has a step that runs a task named [n], and the registry has no task
    of that name. *)
Definition unresolved (h : heap) (tasks : Tasks.t) (t : Task.t) (n : string) : Prop :=
  ∃ step, step ∈ arr h (Task._steps t) ∧
          truthy (TaskStep.execTask step) = Some n ∧
          Tasks.tryFind tasks n = None.

(** Every reference met when rendering [t] resolves. *)
Definition resolvable (h : heap) (tasks : Tasks.t) (t : Task.t) : Prop :=
  ∀ u n, rtc (references h tasks) t u → ¬ unresolved h tasks u n.

(** ** The merged environment, in the spec's words *)

(** A registry entry, with the task's value when the task has its key. *)
Definition overridden (own : JsObject) (kv : string * string) : string * string :=
  (kv.1, default kv.2 (obj_get kv.1 own)).

(** Insertion order of the merged map, registry entries first: the
    registry's entries in their order, each overridden by the task, then the
    entries that only the task has, in their order. *)
Definition insertion_order_merge (base own : JsObject) : JsObject :=
  (overridden own <$> base) ++ filter (λ kv, obj_get kv.1 base = None) own.

(** ** Concrete inputs *)

Definition heap_of (arrs : list (loc * list TaskStep.t)) (objs : list (loc * JsObject)) : heap :=
  {| arrays := list_to_map arrs; objects := list_to_map objs; bare := ∅ |}.

Definition task_at (name : string) (condition : option string) (l : loc) : Task.t :=
  {| Task.name := name; Task.description := None; Task.category := None;
     Task.condition := condition; Task._steps := l; Task._env := l |}.

Definition no_tasks : Tasks.t := {| Tasks._tasks := ∅; Tasks.env := [] |}.

(** A task [a] that runs the task [b] between two commands. *)
Definition task_a : Task.t := task_at "a" None 0.
Definition task_b : Task.t := task_at "b" None 1.
Definition chain_heap : heap :=
  heap_of [(0, [inline "first"; subtask "b"; inline "last"]); (1, [inline "inner"])] [].
Definition chain_tasks : Tasks.t :=
  {| Tasks._tasks := {[ "a" := task_a; "b" := task_b ]}; Tasks.env := [] |}.

(** A task that runs itself. *)
Definition task_loop : Task.t := task_at "loop" None 0.
Definition loop_heap : heap := heap_of [(0, [subtask "loop"])] [].
Definition loop_tasks : Tasks.t :=
  {| Tasks._tasks := {[ "loop" := task_loop ]}; Tasks.env := [] |}.

(** The same, with a step before that names a task nobody registered. *)
Definition broken_loop_heap : heap := heap_of [(0, [subtask "missing"; subtask "loop"])] [].

(** * Properties *)

(** ** Basic facts *)

Example array_index_examples :
  array_index "0" = Some 0%N ∧ array_index "10" = Some 10%N ∧
  array_index "4294967294" = Some 4294967294%N ∧ array_index "4294967295" = None ∧
  array_index "01" = None ∧ array_index "1e3" = None ∧ array_index "FOO" = None ∧
  array_index EmptyString = None.
Proof. vm_compute. repeat split. Qed.

Example entries_example :
  entries [("b", "1"); ("10", "x"); ("9", "y"); ("a", "2")] =
  [("9", "y"); ("10", "x"); ("b", "1"); ("a", "2")].
Proof. vm_compute. reflexivity. Qed.

(** A task [build] with the step [npm run compile] and the variable [FOO]. *)
Example render_build :
  toShellCommand (heap_of [(0, [inline "npm run compile"])] [(0, [("FOO", "bar")])])
    no_tasks 1 (task_at "build" None 0)
  = Return ("( FOO=" +:+ dquote +:+ "bar" +:+ dquote +:+ ";  ( npm run compile ) )").
Proof. vm_compute. reflexivity. Qed.

Lemma truthy_Some x s : truthy x = Some s ↔ x = Some s ∧ s ≠ EmptyString.
Proof.
  destruct x as [[|c r]|]; simpl; split; intuition congruence.
Qed.

Lemma truthy_nonempty s : s ≠ EmptyString → truthy (Some s) = Some s.
Proof. intros Hs. by apply truthy_Some. Qed.

Lemma arr_set_arr_eq l a h : arr (set_arr l a h) l = a.
Proof. unfold arr, set_arr; simpl. by rewrite lookup_insert_eq. Qed.

Lemma arr_set_arr_ne l l' a h : l ≠ l' → arr (set_arr l a h) l' = arr h l'.
Proof. intros Hne. unfold arr, set_arr; simpl. by rewrite lookup_insert_ne. Qed.

Lemma shift_while_length_nil {A} (a : list A) : shift_while_length a = [].
Proof. induction a; auto. Qed.

Lemma for_of_app {A B} (body : B → A → outcome B) acc a1 a2 :
  for_of body acc (a1 ++ a2) = (acc' ← for_of body acc a1; for_of body acc' a2).
Proof.
  revert acc. induction a1 as [|x a1 IH]; intros acc; simpl; [done|].
  destruct (body acc x); simpl; auto.
Qed.

Section accumulate.

Context (tasks : Tasks.t) (render : Task.t → outcome string).

(** The loop only ever adds at the end of [cmd]. *)
Lemma step_commands_acc cmd step :
  step_commands tasks render cmd step =
  (c ← step_commands tasks render [] step; Return (cmd ++ c)).
Proof.
  unfold step_commands, push.
  destruct (truthy (TaskStep.name step)), (truthy (TaskStep.exec step)),
    (truthy (TaskStep.execTask step)) as [n|]; simpl;
    try destruct (Tasks.tryFind tasks n); simpl;
    try destruct (render _); simpl;
    rewrite ?app_nil_r, <- ?app_assoc; reflexivity.
Qed.

Lemma for_of_acc acc a :
  for_of (step_commands tasks render) acc a =
  (c ← for_of (step_commands tasks render) [] a; Return (acc ++ c)).
Proof.
  revert acc. induction a as [|x a IH]; intros acc; simpl.
  - by rewrite app_nil_r.
  - rewrite step_commands_acc.
    destruct (step_commands tasks render [] x) as [c| |]; simpl; try done.
    rewrite (IH (acc ++ c)), (IH c).
    destruct (for_of _ [] a); simpl; try done.
    by rewrite app_assoc.
Qed.

End accumulate.

Lemma toShellCommand_unfold h tasks fuel this :
  toShellCommand h tasks fuel this =
  (cmd ← cmd_array h tasks fuel this;
   Return ("( " +:+ join EmptyString (lines h tasks this) +:+ " " +:+
           withCondition this cmd +:+ " )")).
Proof. by destruct fuel. Qed.

(** The copy made by the [steps] accessor has the contents of [_steps], and
    no array that existed is changed: the renderer may read [_steps]. *)
Lemma steps_contents this h :
  arr (Task.steps this h).2 (Task.steps this h).1 = arr h (Task._steps this).
Proof. unfold Task.steps, alloc_arr; simpl. apply arr_set_arr_eq. Qed.

Lemma steps_fresh this h : (Task.steps this h).1 ∉ dom (arrays h).
Proof. unfold Task.steps, alloc_arr; simpl. apply is_fresh. Qed.

Lemma steps_frame this h l :
  l ∈ dom (arrays h) → arr (Task.steps this h).2 l = arr h l.
Proof.
  intros Hl. unfold Task.steps, alloc_arr; simpl.
  apply arr_set_arr_ne. intros <-. by apply (is_fresh (dom (arrays h))).
Qed.

Lemma append_assoc (a b c : string) : (a +:+ b) +:+ c = a +:+ b +:+ c.
Proof.
  induction a as [|x a IH]; [done|].
  change (String x ((a +:+ b) +:+ c) = String x (a +:+ b +:+ c)). by f_equal.
Qed.

(** ** The condition gate *)









(** ** Inline steps *)

Lemma for_of_inline tasks render steps cs :
  Forall2 inline_step steps cs →
  for_of (step_commands tasks render) [] steps = Return cs.
Proof.
  induction 1 as [|step c steps cs (Hn & Hx & Ht) _ IH]; simpl; [done|].
  unfold step_commands at 2. rewrite Hn, Hx, Ht. simpl.
  rewrite for_of_acc, IH. reflexivity.
Qed.

Lemma exec_steps c options this h :
  arr (Task.exec c options this h) (Task._steps this) =
  arr h (Task._steps this) ++
    [{| TaskStep.name := TaskStepOptions.name options;
        TaskStep.env := TaskStepOptions.env options;
        TaskStep.exec := Some c; TaskStep.execTask := None |}].
Proof. unfold Task.exec, push. by rewrite arr_set_arr_eq. Qed.

Lemma prepend_steps c options this h :
  arr (Task.prepend c options this h) (Task._steps this) =
  {| TaskStep.name := TaskStepOptions.name options;
     TaskStep.env := TaskStepOptions.env options;
     TaskStep.exec := Some c; TaskStep.execTask := None |}
  :: arr h (Task._steps this).
Proof. unfold Task.prepend, unshift. by rewrite arr_set_arr_eq. Qed.

(** Successive calls of [exec] leave the steps in the order of the calls. *)
Lemma exec_in_order cs this h :
  arr (foldl (λ h c, Task.exec c TaskStepOptions.empty this h) h cs) (Task._steps this) =
  arr h (Task._steps this) ++ (inline <$> cs).
Proof.
  revert h. induction cs as [|c cs IH]; intros h; simpl.
  - by rewrite app_nil_r.
  - rewrite IH, exec_steps. by rewrite <- app_assoc.
Qed.

Lemma inline_is_inline_step cs :
  Forall (λ c, c ≠ EmptyString) cs → Forall2 inline_step (inline <$> cs) cs.
Proof.
  induction 1 as [|c cs Hc _ IH]; simpl; constructor; [|done].
  repeat split; try done. by apply truthy_nonempty.
Qed.

(** X13: after [reset()], the non-empty commands given to successive calls
    of [exec] are rendered, for a task without condition, as one fragment
    each and in the order of the calls, whatever the steps were before. *)
Lemma render_exec_sequence h tasks fuel this cs :
  truthy (Task.condition this) = None →
  Forall (λ c, c ≠ EmptyString) cs →
  let h1 := foldl (λ h c, Task.exec c TaskStepOptions.empty this h)
              (Task.reset None this h) cs in
  toShellCommand h1 tasks (S fuel) this =
    Return ("( " +:+ join EmptyString (lines h1 tasks this) +:+ " " +:+
            join " && " (group <$> cs) +:+ " )").
Proof.
  intros Hc Hcs h1.
  assert (arr h1 (Task._steps this) = inline <$> cs) as Hsteps.
  { subst h1. rewrite exec_in_order. unfold Task.reset. cbn [truthy].
    by rewrite arr_set_arr_eq, shift_while_length_nil. }
  cbn [toShellCommand]. rewrite Hsteps.
  rewrite (for_of_inline _ _ _ cs (inline_is_inline_step cs Hcs)). simpl.
  unfold withCondition. by rewrite Hc.
Qed.

(** C6, amended: when every step of a task without condition is an unnamed
    inline step with a non-empty command, the rendering is the [&&]-join of
    exactly one grouped fragment per step, in the order of the step list. *)
Theorem C6_inline_steps_and_chain h tasks fuel this cs :
  truthy (Task.condition this) = None →
  Forall2 inline_step (arr h (Task._steps this)) cs →
  toShellCommand h tasks (S fuel) this =
    Return ("( " +:+ join EmptyString (lines h tasks this) +:+ " " +:+
            join " && " (group <$> cs) +:+ " )")
  ∧ length (group <$> cs) = length (arr h (Task._steps this))
  ∧ ∀ i step, arr h (Task._steps this) !! i = Some step →
      ∃ c, TaskStep.exec step = Some c ∧ (group <$> cs) !! i = Some (group c).
Proof.
  intros Hc Hsteps. split; [|split].
  - simpl. rewrite (for_of_inline _ _ _ _ Hsteps). simpl.
    unfold withCondition. rewrite Hc. reflexivity.
  - rewrite length_fmap. symmetry. by eapply Forall2_length.
  - intros i step Hi.
    destruct (Forall2_lookup_l _ _ _ _ _ Hsteps Hi) as (c & Hci & _ & Hx & _).
    exists c. split.
    + by apply truthy_Some in Hx as [? _].
    + by rewrite list_lookup_fmap, Hci.
Qed.

Lemma C6_witness :
  toShellCommand (heap_of [(0, [inline "a"; inline "b"; inline "c"])] []) no_tasks 1
    (task_at "t" None 0)
  = Return "(  ( a ) && ( b ) && ( c ) )".
Proof.
  apply (C6_inline_steps_and_chain
           (heap_of [(0, [inline "a"; inline "b"; inline "c"])] []) no_tasks 0
           (task_at "t" None 0) ["a"; "b"; "c"] eq_refl).
  repeat constructor.
Defined.

(** C6 as stated fails: a task whose single inline step has the empty
    command renders no fragment at all, and one whose single inline step is
    named renders two. *)
Lemma C6_counterexample :
  let h := heap_of [(0, [inline EmptyString]);
                    (1, [TaskStep.mk (Some "compile") None (Some "tsc") None])] [] in
  length (arr h 0) = 1 ∧
  cmd_array h no_tasks 1 (task_at "t" None 0) = Return [] ∧
  toShellCommand h no_tasks 1 (task_at "t" None 0) = Return "(   )" ∧
  length (arr h 1) = 1 ∧
  cmd_array h no_tasks 1 (task_at "u" None 1) = Return ["echo compile"; "tsc"] ∧
  toShellCommand h no_tasks 1 (task_at "u" None 1) =
    Return "(  ( echo compile ) && ( tsc ) )".
Proof. vm_compute. repeat split. Qed.

(** ** [reset] *)

(** C8, amended: [reset(cmd)] with a non-empty [cmd], then [steps], gives
    exactly one step, the inline step of [cmd]; [reset()] gives no step. *)
Theorem C8_reset_then_steps h this cmd :
  cmd ≠ EmptyString →
  (let h1 := Task.reset (Some cmd) this h in
   arr (Task.steps this h1).2 (Task.steps this h1).1 = [inline cmd])
  ∧ (let h1 := Task.reset None this h in
     arr (Task.steps this h1).2 (Task.steps this h1).1 = []).
Proof.
  intros Hne. split; cbv zeta; rewrite steps_contents; unfold Task.reset.
  - rewrite (truthy_nonempty cmd Hne), exec_steps, arr_set_arr_eq.
    by rewrite shift_while_length_nil.
  - cbn [truthy]. by rewrite arr_set_arr_eq, shift_while_length_nil.
Qed.

Lemma C8_witness :
  let h := heap_of [(0, [inline "old"; subtask "other"])] [] in
  let h1 := Task.reset (Some "new") (task_at "t" None 0) h in
  arr (Task.steps (task_at "t" None 0) h1).2 (Task.steps (task_at "t" None 0) h1).1
  = [inline "new"].
Proof.
  apply (C8_reset_then_steps (heap_of [(0, [inline "old"; subtask "other"])] [])
           (task_at "t" None 0) "new").
  discriminate.
Defined.

(** C8 as stated fails for the empty command string: [reset("")] leaves no
    step. *)
Lemma C8_counterexample :
  let h := heap_of [(0, [inline "old"])] [] in
  let h1 := Task.reset (Some EmptyString) (task_at "t" None 0) h in
  arr (Task.steps (task_at "t" None 0) h1).2 (Task.steps (task_at "t" None 0) h1).1 = [].
Proof. reflexivity. Qed.

(** ** What the renderer reads *)

Lemma step_commands_ext tasks r1 r2 cmd s s' :
  same_commands s s' →
  (∀ n u, Tasks.tryFind tasks n = Some u → r1 u = r2 u) →
  step_commands tasks r1 cmd s = step_commands tasks r2 cmd s'.
Proof.
  intros (Hn & Hx & Ht) Hr. unfold step_commands. rewrite Hn, Hx, Ht.
  destruct (truthy (TaskStep.execTask s')) as [n|]; [|done].
  destruct (Tasks.tryFind tasks n) as [u|] eqn:Hu; [|done].
  by rewrite (Hr n u Hu).
Qed.

Lemma for_of_ext tasks r1 r2 a a' :
  Forall2 same_commands a a' →
  (∀ n u, Tasks.tryFind tasks n = Some u → r1 u = r2 u) →
  ∀ cmd, for_of (step_commands tasks r1) cmd a = for_of (step_commands tasks r2) cmd a'.
Proof.
  intros Ha Hr. induction Ha as [|s s' a a' Hs _ IH]; intros cmd; simpl; [done|].
  rewrite (step_commands_ext tasks r1 r2 cmd s s' Hs Hr).
  destruct (step_commands tasks r2 cmd s'); simpl; auto.
Qed.

(** The renderer reads the environment object of each task and, of each
    step, the fields [name], [exec] and [execTask]: nothing else. *)
Lemma toShellCommand_same_task h h' tasks :
  (∀ n u, Tasks.tryFind tasks n = Some u → same_task h h' u) →
  ∀ fuel this, same_task h h' this →
    toShellCommand h tasks fuel this = toShellCommand h' tasks fuel this.
Proof.
  intros Hreg. induction fuel as [|fuel IH]; intros this [He Hs]; [done|].
  simpl. rewrite (for_of_ext tasks _ (toShellCommand h' tasks fuel) _ _ Hs).
  - unfold lines, merged_env. by rewrite He.
  - intros n u Hu. apply IH. by eapply Hreg.
Qed.

Lemma same_commands_refl a : Forall2 same_commands a a.
Proof. induction a; constructor; auto. by repeat split. Qed.

(** ** The [steps] accessor *)

(** *** Stores and their views *)

Lemma view_arr s l : arr (ByRef.view s) l = ByRef.read s (ByRef.elems s l).
Proof.
  unfold arr, ByRef.view, ByRef.elems; simpl. rewrite lookup_fmap.
  by destruct (ByRef.step_arrays s !! l).
Qed.

Lemma elems_set_elems_eq l rs s : ByRef.elems (ByRef.set_elems l rs s) l = rs.
Proof. unfold ByRef.elems, ByRef.set_elems; simpl. by rewrite lookup_insert_eq. Qed.

Lemma elems_set_elems_ne l l' rs s :
  l' ≠ l → ByRef.elems (ByRef.set_elems l rs s) l' = ByRef.elems s l'.
Proof. intros Hl. unfold ByRef.elems, ByRef.set_elems; simpl. by rewrite lookup_insert_ne. Qed.

Lemma elems_wf s l :
  ByRef.wf s → Forall (λ p, is_Some (ByRef.step_objects s !! p)) (ByRef.elems s l).
Proof.
  intros Hwf. unfold ByRef.elems.
  destruct (ByRef.step_arrays s !! l) as [rs|] eqn:Hl; simpl; [|constructor].
  exact (Hwf l rs Hl).
Qed.

Lemma read_cons s q rs :
  ByRef.read s (q :: rs) =
  match ByRef.step_objects s !! q with
  | Some step => step :: ByRef.read s rs
  | None => ByRef.read s rs
  end.
Proof. reflexivity. Qed.

(** Reading through references keeps the positions. *)
Lemma read_lookup s rs i p step :
  Forall (λ q, is_Some (ByRef.step_objects s !! q)) rs →
  rs !! i = Some p → ByRef.step_objects s !! p = Some step →
  ByRef.read s rs !! i = Some step.
Proof.
  intros Hrs. revert i.
  induction Hrs as [|q rs [step' Hq] _ IH]; intros i Hi Hp; [done|].
  rewrite read_cons, Hq.
  destruct i as [|i]; simpl in *.
  - injection Hi as ->. congruence.
  - by apply IH.
Qed.

Lemma read_length s rs :
  Forall (λ q, is_Some (ByRef.step_objects s !! q)) rs →
  length (ByRef.read s rs) = length rs.
Proof.
  induction 1 as [|q rs [step' Hq] _ IH]; [done|].
  rewrite read_cons, Hq. simpl. by rewrite IH.
Qed.

(** A new step object is no element of an array that was there. *)
Lemma read_set_step_fresh s rs p step :
  Forall (λ q, is_Some (ByRef.step_objects s !! q)) rs →
  ByRef.step_objects s !! p = None →
  ByRef.read (ByRef.set_step p step s) rs = ByRef.read s rs.
Proof.
  intros Hrs Hp. induction Hrs as [|q rs Hq _ IH]; [done|].
  rewrite !read_cons, IH. simpl.
  rewrite lookup_insert_ne; [done|]. intros <-. rewrite Hp in Hq. by destruct Hq.
Qed.

Lemma fresh_step s : ByRef.step_objects s !! fresh (dom (ByRef.step_objects s)) = None.
Proof. apply not_elem_of_dom, is_fresh. Qed.

Lemma view_alloc_step s step :
  ByRef.wf s → ByRef.view (ByRef.alloc_step step s).2 = ByRef.view s.
Proof.
  intros Hwf. unfold ByRef.alloc_step, ByRef.view; simpl. f_equal.
  apply map_eq. intros l. rewrite !lookup_fmap.
  destruct (ByRef.step_arrays s !! l) as [rs|] eqn:Hl; simpl; [|done].
  f_equal. apply read_set_step_fresh; [exact (Hwf l rs Hl) | apply fresh_step].
Qed.

Lemma read_alloc_step s step :
  ByRef.read (ByRef.alloc_step step s).2 [(ByRef.alloc_step step s).1] = [step].
Proof. rewrite read_cons. simpl. by rewrite lookup_insert_eq. Qed.

Lemma view_set_elems l rs s :
  ByRef.view (ByRef.set_elems l rs s) = set_arr l (ByRef.read s rs) (ByRef.view s).
Proof. unfold ByRef.view, ByRef.set_elems, set_arr; simpl. by rewrite fmap_insert. Qed.

Lemma read_app s rs rs' : ByRef.read s (rs ++ rs') = ByRef.read s rs ++ ByRef.read s rs'.
Proof. apply omap_app. Qed.

(** The array [l] after a new step object was put at its end, or at its
    front. *)
Lemma view_push_step s l step :
  ByRef.wf s →
  ByRef.view (ByRef.set_elems l
                (push (ByRef.alloc_step step s).1 (ByRef.elems (ByRef.alloc_step step s).2 l))
                (ByRef.alloc_step step s).2)
  = set_arr l (push step (arr (ByRef.view s) l)) (ByRef.view s).
Proof.
  intros Hwf. rewrite view_set_elems, view_alloc_step by done. f_equal.
  unfold push. rewrite read_app, read_alloc_step, view_arr. f_equal.
  apply read_set_step_fresh; [by apply elems_wf | apply fresh_step].
Qed.

Lemma view_unshift_step s l step :
  ByRef.wf s →
  ByRef.view (ByRef.set_elems l
                (unshift (ByRef.alloc_step step s).1 (ByRef.elems (ByRef.alloc_step step s).2 l))
                (ByRef.alloc_step step s).2)
  = set_arr l (unshift step (arr (ByRef.view s) l)) (ByRef.view s).
Proof.
  intros Hwf. rewrite view_set_elems, view_alloc_step by done. f_equal.
  unfold unshift.
  change (?p :: ?rs) with ([p] ++ rs) at 1. rewrite read_app, read_alloc_step, view_arr.
  simpl. f_equal.
  apply read_set_step_fresh; [by apply elems_wf | apply fresh_step].
Qed.

(** The methods of a task on a store are, to a reader, the methods on the
    heap of values. *)
Lemma view_exec command options this s :
  ByRef.wf s →
  ByRef.view (ByRef.exec command options this s) = Task.exec command options this (ByRef.view s).
Proof. intros Hwf. by apply view_push_step. Qed.

Lemma view_prepend shell options this s :
  ByRef.wf s →
  ByRef.view (ByRef.prepend shell options this s) = Task.prepend shell options this (ByRef.view s).
Proof. intros Hwf. by apply view_unshift_step. Qed.

Lemma view_execTask subtask options this s :
  ByRef.wf s →
  ByRef.view (ByRef.execTask subtask options this s)
  = Task.execTask subtask options this (ByRef.view s).
Proof. intros Hwf. by apply view_push_step. Qed.

Lemma view_commit message options this s :
  ByRef.wf s →
  ByRef.view (ByRef.commit message options this s)
  = Task.commit message options this (ByRef.view s).
Proof. intros Hwf. by apply view_exec. Qed.

Lemma view_env k v this s :
  ByRef.view (ByRef.env k v this s) = Task.env k v this (ByRef.view s).
Proof.
  unfold ByRef.env, Task.env, obj, ByRef.view. cbn.
  by destruct (decide _).
Qed.

Lemma wf_set_elems l rs s :
  ByRef.wf s → Forall (λ p, is_Some (ByRef.step_objects s !! p)) rs →
  ByRef.wf (ByRef.set_elems l rs s).
Proof. intros Hwf Hrs. by apply map_Forall_insert_2. Qed.

Lemma wf_set_step p step s : ByRef.wf s → ByRef.wf (ByRef.set_step p step s).
Proof.
  intros Hwf l rs Hl. simpl in *. eapply Forall_impl; [exact (Hwf l rs Hl)|].
  intros q Hq. simpl. destruct (decide (q = p)) as [->|Hne].
  - rewrite lookup_insert_eq. by eexists.
  - by rewrite lookup_insert_ne.
Qed.

Lemma wf_push_step s l step (place : ByRef.ref → list ByRef.ref → list ByRef.ref) :
  (∀ p rs (P : ByRef.ref → Prop), P p → Forall P rs → Forall P (place p rs)) →
  ByRef.wf s →
  ByRef.wf (ByRef.set_elems l
              (place (ByRef.alloc_step step s).1 (ByRef.elems (ByRef.alloc_step step s).2 l))
              (ByRef.alloc_step step s).2).
Proof.
  intros Hplace Hwf. apply wf_set_elems; [by apply wf_set_step|].
  apply Hplace.
  - simpl. rewrite lookup_insert_eq. by eexists.
  - apply elems_wf. by apply wf_set_step.
Qed.

Lemma wf_exec command options this s :
  ByRef.wf s → ByRef.wf (ByRef.exec command options this s).
Proof.
  intros Hwf. apply (wf_push_step _ _ _ push); [|done].
  intros p rs P Hp Hrs. apply Forall_app; split; [done|by constructor].
Qed.

Lemma wf_prepend shell options this s :
  ByRef.wf s → ByRef.wf (ByRef.prepend shell options this s).
Proof.
  intros Hwf. apply (wf_push_step _ _ _ unshift); [|done].
  intros p rs P Hp Hrs. by constructor.
Qed.

Lemma wf_execTask subtask options this s :
  ByRef.wf s → ByRef.wf (ByRef.execTask subtask options this s).
Proof.
  intros Hwf. apply (wf_push_step _ _ _ push); [|done].
  intros p rs P Hp Hrs. apply Forall_app; split; [done|by constructor].
Qed.

Lemma view_reset command this s :
  ByRef.wf s →
  ByRef.view (ByRef.reset command this s) = Task.reset command this (ByRef.view s).
Proof.
  intros Hwf. unfold ByRef.reset, Task.reset.
  assert (ByRef.view (ByRef.set_elems (Task._steps this)
                        (shift_while_length (ByRef.elems s (Task._steps this))) s)
          = set_arr (Task._steps this)
              (shift_while_length (arr (ByRef.view s) (Task._steps this))) (ByRef.view s)) as Hview.
  { by rewrite view_set_elems, !shift_while_length_nil. }
  destruct (truthy command) as [c|]; [|done].
  rewrite view_exec, Hview; [done|].
  apply wf_set_elems; [done|]. rewrite shift_while_length_nil. constructor.
Qed.

Lemma wf_reset command this s : ByRef.wf s → ByRef.wf (ByRef.reset command this s).
Proof.
  intros Hwf. unfold ByRef.reset.
  assert (ByRef.wf (ByRef.set_elems (Task._steps this)
                      (shift_while_length (ByRef.elems s (Task._steps this))) s)) as Hwf1.
  { apply wf_set_elems; [done|]. rewrite shift_while_length_nil. constructor. }
  destruct (truthy command); [by apply wf_exec|done].
Qed.

Lemma view_steps this s :
  (ByRef.steps this s).1 = (Task.steps this (ByRef.view s)).1
  ∧ ByRef.view (ByRef.steps this s).2 = (Task.steps this (ByRef.view s)).2.
Proof.
  unfold ByRef.steps, Task.steps, alloc_arr. cbn [fst snd].
  assert (dom (arrays (ByRef.view s)) = dom (ByRef.step_arrays s)) as ->.
  { unfold ByRef.view; simpl. apply dom_fmap_L. }
  split; [done|]. by rewrite view_set_elems, view_arr.
Qed.

Lemma wf_steps this s : ByRef.wf s → ByRef.wf (ByRef.steps this s).2.
Proof. intros Hwf. apply wf_set_elems; [done|]. by apply elems_wf. Qed.

(** *** What the holder of the copy can do *)

Lemma steps_elems this s :
  ByRef.elems (ByRef.steps this s).2 (ByRef.steps this s).1 = ByRef.elems s (Task._steps this).
Proof. apply elems_set_elems_eq. Qed.

Lemma steps_elems_fresh this s : (ByRef.steps this s).1 ∉ dom (ByRef.step_arrays s).
Proof. apply is_fresh. Qed.

Lemma steps_elems_frame this s l :
  l ∈ dom (ByRef.step_arrays s) → ByRef.elems (ByRef.steps this s).2 l = ByRef.elems s l.
Proof.
  intros Hl. apply elems_set_elems_ne. intros ->. by apply (steps_elems_fresh this s).
Qed.

(** Changes of the array [r] leave the step objects, the environment
    objects and the other arrays as they were. *)
Lemma set_elements_frame r fs s :
  let s' := foldl (ByRef.act r) s (ByRef.SetElements <$> fs) in
  ByRef.step_objects s' = ByRef.step_objects s
  ∧ ByRef.env_objects s' = ByRef.env_objects s
  ∧ ∀ l, l ≠ r → ByRef.elems s' l = ByRef.elems s l.
Proof.
  revert s. induction fs as [|f fs IH]; intros s; simpl; [done|].
  destruct (IH (ByRef.set_elems r (f (ByRef.elems s r)) s)) as (Ho & He & Ha).
  split; [|split]; [done|done|].
  intros l Hl. rewrite Ha by done. by apply elems_set_elems_ne.
Qed.

Lemma set_elements_same_task r fs s u :
  Task._steps u ≠ r →
  same_task (ByRef.view (foldl (ByRef.act r) s (ByRef.SetElements <$> fs))) (ByRef.view s) u.
Proof.
  intros Hu. destruct (set_elements_frame r fs s) as (Ho & He & Ha).
  split.
  - unfold obj, ByRef.view; simpl. by rewrite He.
  - rewrite !view_arr, Ha by done. unfold ByRef.read. rewrite Ho.
    apply same_commands_refl.
Qed.

(** The assignment [step.exec = c]. *)
Lemma with_exec_fields c step :
  TaskStep.exec (with_exec c step) = Some c
  ∧ TaskStep.name (with_exec c step) = TaskStep.name step
  ∧ TaskStep.execTask (with_exec c step) = TaskStep.execTask step.
Proof. done. Qed.

(** C9, as the code has it: the array returned by [steps] is a new array
    whose elements are the step objects of the internal list, in order, so
    that its contents are those of the internal list at the time of the
    call.  Whatever is done to that array itself afterwards, the internal
    list and the rendering stay what they were.  The step objects are not
    copied: an assignment to a field of an element of the returned array
    is an assignment to the step at that place of the internal list. *)
Theorem C9_steps_is_a_shallow_copy s tasks this :
  ByRef.wf s →
  Task._steps this ∈ dom (ByRef.step_arrays s) →
  (∀ n u, Tasks.tryFind tasks n = Some u → Task._steps u ∈ dom (ByRef.step_arrays s)) →
  let r := (ByRef.steps this s).1 in
  let s1 := (ByRef.steps this s).2 in
  (r ≠ Task._steps this
   ∧ ByRef.elems s1 r = ByRef.elems s (Task._steps this)
   ∧ arr (ByRef.view s1) r = arr (ByRef.view s) (Task._steps this))
  ∧ (∀ fs,
       let s2 := foldl (ByRef.act r) s1 (ByRef.SetElements <$> fs) in
       ByRef.elems s2 (Task._steps this) = ByRef.elems s (Task._steps this)
       ∧ arr (ByRef.view s2) (Task._steps this) = arr (ByRef.view s) (Task._steps this)
       ∧ ∀ fuel, toShellCommand (ByRef.view s2) tasks fuel this
                 = toShellCommand (ByRef.view s) tasks fuel this)
  ∧ (∀ i p step f,
       ByRef.elems s (Task._steps this) !! i = Some p →
       ByRef.step_objects s !! p = Some step →
       let s3 := ByRef.act r s1 (ByRef.WriteStep i f) in
       ByRef.elems s3 (Task._steps this) = ByRef.elems s (Task._steps this)
       ∧ ByRef.step_objects s3 !! p = Some (f step)
       ∧ arr (ByRef.view s3) (Task._steps this) !! i = Some (f step)).
Proof.
  intros Hwf Hthis Hreg r s1.
  assert (∀ u, Task._steps u ∈ dom (ByRef.step_arrays s) → Task._steps u ≠ r) as Hfresh.
  { intros u Hu Heq. apply (steps_elems_fresh this s). fold r. by rewrite <- Heq. }
  assert (∀ u, Task._steps u ∈ dom (ByRef.step_arrays s) → same_task (ByRef.view s1) (ByRef.view s) u)
    as Hsame1.
  { intros u Hu. split; [done|]. rewrite !view_arr. subst s1.
    rewrite steps_elems_frame by done. apply same_commands_refl. }
  split; [|split].
  - split; [by apply not_eq_sym, Hfresh|]. split; [apply steps_elems|].
    rewrite !view_arr. subst s1 r. by rewrite steps_elems.
  - intros fs s2.
    destruct (set_elements_frame r fs s1) as (Ho & He & Ha). fold s2 in Ho, He, Ha.
    assert (ByRef.elems s2 (Task._steps this) = ByRef.elems s (Task._steps this)) as Helems.
    { rewrite Ha by (by apply Hfresh). subst s1. by apply steps_elems_frame. }
    split; [done|]. split.
    + rewrite !view_arr, Helems. unfold ByRef.read. by rewrite Ho.
    + intros fuel.
      rewrite (toShellCommand_same_task (ByRef.view s2) (ByRef.view s1)).
      * apply toShellCommand_same_task; [|by apply Hsame1].
        intros n u Hu. apply Hsame1. by eapply Hreg.
      * intros n u Hu. apply set_elements_same_task, Hfresh. by eapply Hreg.
      * by apply set_elements_same_task, Hfresh.
  - intros i p step f Hi Hp s3.
    assert (s3 = ByRef.set_step p (f step) s1) as Hs3.
    { unfold s3, ByRef.act, s1, r. rewrite steps_elems, Hi.
      change (ByRef.step_objects (ByRef.steps this s).2) with (ByRef.step_objects s).
      by rewrite Hp. }
    rewrite Hs3. clear Hs3 s3.
    assert (ByRef.elems s1 (Task._steps this) = ByRef.elems s (Task._steps this)) as Helems.
    { subst s1. by apply steps_elems_frame. }
    split; [done|]. split; [apply lookup_insert_eq|].
    rewrite view_arr. apply read_lookup with p.
    + apply elems_wf, wf_set_step. subst s1. by apply wf_steps.
    + by rewrite <- Hi, <- Helems.
    + apply lookup_insert_eq.
Qed.

Lemma C9_witness :
  let this := task_at "t" None 0 in
  let s := ByRef.exec "a" TaskStepOptions.empty this (ByRef.store_of [] [(0, [])]) in
  let r := (ByRef.steps this s).1 in
  let s3 := ByRef.act r (ByRef.steps this s).2 (ByRef.WriteStep 0 (with_exec "evil")) in
  arr (ByRef.view s) 0 = [inline "a"]
  ∧ toShellCommand (ByRef.view s) no_tasks 1 this = Return "(  ( a ) )"
  ∧ arr (ByRef.view s3) 0 !! 0 = Some (inline "evil")
  ∧ toShellCommand (ByRef.view s3) no_tasks 1 this = Return "(  ( evil ) )".
Proof.
  pose proof (C9_steps_is_a_shallow_copy
                (ByRef.exec "a" TaskStepOptions.empty (task_at "t" None 0)
                   (ByRef.store_of [] [(0, [])]))
                no_tasks (task_at "t" None 0)) as H.
  cbv zeta in *. destruct H as (_ & _ & H).
  - apply wf_exec. unfold ByRef.wf, ByRef.store_of. simpl.
    apply map_Forall_insert_2; [constructor | apply map_Forall_empty].
  - apply (bool_decide_unpack _). vm_compute. reflexivity.
  - intros n u Hu. vm_compute in Hu. discriminate.
  - destruct (H 0 0 (inline "a") (with_exec "evil") eq_refl eq_refl) as (_ & _ & H3).
    split; [vm_compute; reflexivity|]. split; [vm_compute; reflexivity|].
    split; [exact H3|]. vm_compute. reflexivity.
Defined.

(** By contrast the record of [_renderSpec] gives out the internal array
    itself: a change made through it is a change of the task. *)
Lemma renderSpec_steps_aliased this a h :
  arr (set_arr (spec_steps (Task._renderSpec this)) a h) (Task._steps this) = a.
Proof. simpl. apply arr_set_arr_eq. Qed.

(** ** Steps with an empty command *)

(** C10, amended: [exec] and [prepend] with the empty command add a step at
    the end and at the front of the step list, which the [steps] accessor and
    [_renderSpec] show; the renderer pushes no command fragment for it: the
    fragments are those of the other steps, plus the [echo] of the step's
    name when it has a non-empty one. *)
Theorem C10_empty_command_step h tasks fuel this options :
  let step := {| TaskStep.name := TaskStepOptions.name options;
                 TaskStep.env := TaskStepOptions.env options;
                 TaskStep.exec := Some EmptyString;
                 TaskStep.execTask := None |} in
  let others h1 :=
    for_of (step_commands tasks (toShellCommand h1 tasks fuel)) [] (arr h (Task._steps this)) in
  (let h1 := Task.exec EmptyString options this h in
   arr h1 (Task._steps this) = arr h (Task._steps this) ++ [step]
   ∧ arr (Task.steps this h1).2 (Task.steps this h1).1 = arr h (Task._steps this) ++ [step]
   ∧ arr h1 (spec_steps (Task._renderSpec this)) = arr h (Task._steps this) ++ [step]
   ∧ cmd_array h1 tasks (S fuel) this =
       (cmd ← others h1; Return (cmd ++ echo (TaskStepOptions.name options))))
  ∧
  (let h1 := Task.prepend EmptyString options this h in
   arr h1 (Task._steps this) = step :: arr h (Task._steps this)
   ∧ arr (Task.steps this h1).2 (Task.steps this h1).1 = step :: arr h (Task._steps this)
   ∧ arr h1 (spec_steps (Task._renderSpec this)) = step :: arr h (Task._steps this)
   ∧ cmd_array h1 tasks (S fuel) this =
       (cmd ← others h1; Return (echo (TaskStepOptions.name options) ++ cmd))).
Proof.
  intros step others. split; cbv zeta.
  - rewrite steps_contents. cbn [Task._renderSpec spec_steps].
    rewrite exec_steps. repeat split.
    unfold cmd_array. rewrite exec_steps, for_of_app. unfold others.
    destruct (for_of _ [] (arr h (Task._steps this))) as [cmd| |]; simpl; try done.
    unfold step_commands, echo, push; simpl.
    destruct (truthy (TaskStepOptions.name options)); simpl; [done|].
    by rewrite app_nil_r.
  - rewrite steps_contents. cbn [Task._renderSpec spec_steps].
    rewrite prepend_steps. repeat split.
    unfold cmd_array. rewrite prepend_steps. cbn [for_of].
    unfold step_commands at 2. cbn [TaskStep.name TaskStep.exec TaskStep.execTask truthy].
    cbn [mbind outcome_bind]. rewrite for_of_acc. unfold others, echo, push.
    destruct (truthy (TaskStepOptions.name options)); reflexivity.
Qed.

(** C10 as stated fails for a named step: its command is empty, and yet
    the step puts a fragment in the chain. *)
Lemma C10_counterexample :
  let h := heap_of [(0, [inline "a"])] [] in
  let this := task_at "t" None 0 in
  let h1 := Task.exec EmptyString (TaskStepOptions.mk (Some "done") None) this h in
  toShellCommand h no_tasks 1 this = Return "(  ( a ) )" ∧
  arr h1 0 = [inline "a"; TaskStep.mk (Some "done") None (Some EmptyString) None] ∧
  toShellCommand h1 no_tasks 1 this = Return "(  ( a ) && ( echo done ) )".
Proof. vm_compute. repeat split. Qed.

(** ** Outcomes of the loop over the steps *)

Section loop_outcomes.

Context (tasks : Tasks.t) (render : Task.t → outcome string).

Lemma step_commands_cases cmd step :
  (truthy (TaskStep.execTask step) = None ∧
   step_commands tasks render cmd step =
     Return (cmd ++ echo (TaskStep.name step) ++ command (TaskStep.exec step)))
  ∨ (∃ n, truthy (TaskStep.execTask step) = Some n ∧ Tasks.tryFind tasks n = None ∧
          step_commands tasks render cmd step = Error ("unable to resolve subtask " +:+ n))
  ∨ (∃ n u, truthy (TaskStep.execTask step) = Some n ∧ Tasks.tryFind tasks n = Some u ∧
            step_commands tasks render cmd step =
              (s ← render u;
               Return (cmd ++ echo (TaskStep.name step) ++ command (TaskStep.exec step)
                           ++ [group s]))).
Proof.
  unfold step_commands, echo, command, push.
  destruct (truthy (TaskStep.execTask step)) as [n|].
  - right. destruct (Tasks.tryFind tasks n) as [u|] eqn:Hu.
    + right. exists n, u. split; [done|]. split; [done|].
      destruct (truthy (TaskStep.name step)), (truthy (TaskStep.exec step));
        destruct (render u); simpl; by rewrite <- ?app_assoc.
    + left. by exists n.
  - left. split; [done|].
    destruct (truthy (TaskStep.name step)), (truthy (TaskStep.exec step)); simpl;
      by rewrite <- ?app_assoc, ?app_nil_r.
Qed.

(** A step whose [execTask] is absent or the empty string is passed over by
    the last test of the loop: no lookup, no error, and nothing rendered,
    whatever the registry has under the empty name. *)
Lemma step_commands_empty_name cmd step :
  TaskStep.execTask step = None ∨ TaskStep.execTask step = Some EmptyString →
  step_commands tasks render cmd step =
  Return (cmd ++ echo (TaskStep.name step) ++ command (TaskStep.exec step)).
Proof.
  intros Hx.
  assert (truthy (TaskStep.execTask step) = None) as Hn by (by destruct Hx as [-> | ->]).
  destruct (step_commands_cases cmd step)
    as [[_ ->]|[(n & Hn' & _)|(n & u & Hn' & _)]]; [done|congruence|congruence].
Qed.

Lemma for_of_OutOfFuel acc a :
  for_of (step_commands tasks render) acc a = OutOfFuel →
  ∃ step n u, step ∈ a ∧ truthy (TaskStep.execTask step) = Some n ∧
              Tasks.tryFind tasks n = Some u ∧ render u = OutOfFuel.
Proof.
  revert acc. induction a as [|step a IH]; intros acc; simpl; [done|].
  destruct (step_commands_cases acc step)
    as [[_ ->]|[(n & _ & _ & ->)|(n & u & Hn & Hu & ->)]]; simpl.
  - intros (s & n & u & Hs & H)%IH. exists s, n, u. split; [by right|done].
  - done.
  - destruct (render u) eqn:Hr; simpl; try done.
    + intros (s & n' & u' & Hs & H)%IH. exists s, n', u'. split; [by right|done].
    + intros _. exists step, n, u. repeat split; try done. by left.
Qed.

Lemma for_of_Error acc a msg :
  for_of (step_commands tasks render) acc a = Error msg →
  ∃ step n, step ∈ a ∧ truthy (TaskStep.execTask step) = Some n ∧
    ((Tasks.tryFind tasks n = None ∧ msg = "unable to resolve subtask " +:+ n)
     ∨ ∃ u, Tasks.tryFind tasks n = Some u ∧ render u = Error msg).
Proof.
  revert acc. induction a as [|step a IH]; intros acc; simpl; [done|].
  destruct (step_commands_cases acc step)
    as [[_ ->]|[(n & Hn & Hu & ->)|(n & u & Hn & Hu & ->)]]; simpl.
  - intros (s & n & Hs & H)%IH. exists s, n. split; [by right|done].
  - intros [= <-]. exists step, n. split; [by left|]. split; [done|]. by left.
  - destruct (render u) eqn:Hr; simpl; try done.
    + intros (s & n' & Hs & H)%IH. exists s, n'. split; [by right|done].
    + intros [= <-]. exists step, n. split; [by left|]. split; [done|]. right. by exists u.
Qed.

Lemma for_of_Return acc a cmd :
  for_of (step_commands tasks render) acc a = Return cmd →
  ∀ step n, step ∈ a → truthy (TaskStep.execTask step) = Some n →
    ∃ u s, Tasks.tryFind tasks n = Some u ∧ render u = Return s.
Proof.
  revert acc. induction a as [|step a IH]; intros acc; simpl.
  - intros _ step n Hin. by apply elem_of_nil in Hin.
  - destruct (step_commands_cases acc step)
      as [[Hn ->]|[(n & _ & _ & ->)|(n & u & Hn & Hu & ->)]]; simpl; try done.
    + intros Hrest step' n' [->|Hin]%elem_of_cons Hn'; [congruence|]. by eapply IH.
    + destruct (render u) eqn:Hr; simpl; try done.
      intros Hrest step' n' [->|Hin]%elem_of_cons Hn'; [|by eapply IH].
      assert (n' = n) as -> by congruence. eauto.
Qed.

(** The steps before an unresolved one do not matter: the loop cannot
    complete. *)
Lemma for_of_unresolved acc a step n cmd :
  step ∈ a → truthy (TaskStep.execTask step) = Some n →
  Tasks.tryFind tasks n = None →
  for_of (step_commands tasks render) acc a ≠ Return cmd.
Proof.
  intros Hin Hn Hu Hret.
  destruct (for_of_Return _ _ _ Hret step n Hin Hn) as (u & s & Hu' & _). congruence.
Qed.

End loop_outcomes.

(** ** Outcomes of a call *)

Section call_outcomes.

Context (h : heap) (tasks : Tasks.t).

Lemma toShellCommand_OutOfFuel fuel this :
  toShellCommand h tasks (S fuel) this = OutOfFuel ↔ cmd_array h tasks (S fuel) this = OutOfFuel.
Proof. unfold cmd_array. simpl. destruct (for_of _ _ _); simpl; split. all: done. Qed.

Lemma toShellCommand_Error fuel this msg :
  toShellCommand h tasks (S fuel) this = Error msg ↔ cmd_array h tasks (S fuel) this = Error msg.
Proof.
  unfold cmd_array. simpl. destruct (for_of _ _ _); simpl; split.
  all: try done; by intros [= ->].
Qed.

Lemma toShellCommand_Return fuel this s :
  toShellCommand h tasks (S fuel) this = Return s ↔
  ∃ cmd, cmd_array h tasks (S fuel) this = Return cmd ∧
         s = "( " +:+ join EmptyString (lines h tasks this) +:+ " " +:+
             withCondition this cmd +:+ " )".
Proof.
  unfold cmd_array. simpl. destruct (for_of _ _ _) as [cmd| |]; simpl; split.
  - intros [= <-]. by exists cmd.
  - by intros (cmd' & [= <-] & ->).
  - done.
  - by intros (cmd' & [=] & _).
  - done.
  - by intros (cmd' & [=] & _).
Qed.

(** A larger budget does not change an outcome that was reached. *)
Lemma for_of_mono r1 r2 :
  (∀ u o, r1 u = o → o ≠ OutOfFuel → r2 u = o) →
  ∀ a acc o, for_of (step_commands tasks r1) acc a = o → o ≠ OutOfFuel →
             for_of (step_commands tasks r2) acc a = o.
Proof.
  intros Hr. induction a as [|step a IH]; intros acc o; simpl; [done|].
  destruct (step_commands_cases tasks r1 acc step)
    as [[Hn ->]|[(n & Hn & Hu & ->)|(n & u & Hn & Hu & ->)]];
  destruct (step_commands_cases tasks r2 acc step)
    as [[Hn' ->]|[(n' & Hn' & Hu' & ->)|(n' & u' & Hn' & Hu' & ->)]];
  try congruence; simpl.
  - apply IH.
  - assert (n' = n) as -> by congruence. done.
  - assert (n' = n) as -> by congruence. assert (u' = u) as -> by congruence.
    destruct (r1 u) as [s| |] eqn:Hr1; simpl.
    + rewrite (Hr u (Return s) Hr1) by done. simpl. apply IH.
    + rewrite (Hr u (Error msg) Hr1) by done. done.
    + intros <-. done.
Qed.

Lemma toShellCommand_mono fuel this o :
  toShellCommand h tasks fuel this = o → o ≠ OutOfFuel →
  ∀ fuel', fuel ≤ fuel' → toShellCommand h tasks fuel' this = o.
Proof.
  revert this o. induction fuel as [|fuel IH]; intros this o; simpl.
  - by intros <-.
  - intros Ho Hne [|fuel'] Hle; [lia|]. simpl.
    assert (∀ u o', toShellCommand h tasks fuel u = o' → o' ≠ OutOfFuel →
                    toShellCommand h tasks fuel' u = o') as Hr.
    { intros u o' Hu Ho'. eapply IH; [done|done|lia]. }
    destruct (for_of _ [] (arr h (Task._steps this))) as [cmd| |] eqn:Hloop;
      simpl in Ho; [| |congruence].
    + by rewrite (for_of_mono _ _ Hr _ _ _ Hloop).
    + by rewrite (for_of_mono _ _ Hr _ _ _ Hloop).
Qed.

(** *** Termination *)

Lemma references_fuel (a : list TaskStep.t) this :
  (∀ u, references h tasks this u →
        ∃ fuel, ∀ fuel', fuel ≤ fuel' → toShellCommand h tasks fuel' u ≠ OutOfFuel) →
  (∀ step, step ∈ a → step ∈ arr h (Task._steps this)) →
  ∃ fuel, ∀ step n u, step ∈ a → truthy (TaskStep.execTask step) = Some n →
    Tasks.tryFind tasks n = Some u →
    ∀ fuel', fuel ≤ fuel' → toShellCommand h tasks fuel' u ≠ OutOfFuel.
Proof.
  intros Href. induction a as [|step a IH]; intros Hsub.
  - exists 0. intros step n u Hin. by apply elem_of_nil in Hin.
  - destruct IH as [f1 Hf1]; [intros s Hs; apply Hsub; by right|].
    assert (∃ f2, ∀ n u, truthy (TaskStep.execTask step) = Some n →
              Tasks.tryFind tasks n = Some u →
              ∀ fuel', f2 ≤ fuel' → toShellCommand h tasks fuel' u ≠ OutOfFuel)
      as [f2 Hf2].
    { destruct (truthy (TaskStep.execTask step)) as [n|] eqn:Hn; [|by exists 0].
      destruct (Tasks.tryFind tasks n) as [u|] eqn:Hu.
      - destruct (Href u) as [f2 Hf2].
        { exists step, n. split; [apply Hsub; by left|done]. }
        exists f2. intros n' u' [= <-] Hu'. assert (u' = u) as -> by congruence. done.
      - exists 0. intros n' u' [= <-]. congruence. }
    exists (f1 `max` f2). intros step' n u [->|Hin]%elem_of_cons Hn Hu fuel' Hle.
    + eapply Hf2; [done|done|lia].
    + eapply Hf1; [done|done|done|lia].
Qed.

Lemma sn_terminates this :
  sn (references h tasks) this →
  ∃ fuel, ∀ fuel', fuel ≤ fuel' → toShellCommand h tasks fuel' this ≠ OutOfFuel.
Proof.
  induction 1 as [this _ IH].
  destruct (references_fuel (arr h (Task._steps this)) this) as [f Hf]; [|done|].
  { intros u Hu. by apply IH. }
  exists (S f). intros [|fuel'] Hle; [lia|].
  rewrite toShellCommand_OutOfFuel. unfold cmd_array.
  intros (step & n & u & Hin & Hn & Hu & Hout)%for_of_OutOfFuel.
  eapply Hf; [done|done|done| |done]. lia.
Qed.

Lemma references_registered this u :
  tc (references h tasks) this u → u ∈ (map_to_list (Tasks._tasks tasks)).*2.
Proof.
  induction 1 as [t u (step & n & _ & _ & Hu)|]; [|done].
  apply list_elem_of_fmap. exists (n, u). split; [done|].
  by apply elem_of_map_to_list.
Qed.

(** A registry has finitely many tasks: without a cycle the references
    from any task are well founded. *)
Lemma acyclic_sn this :
  Irreflexive (tc (references h tasks)) → sn (references h tasks) this.
Proof.
  intros Hirr. apply tc_finite_sn; [done|].
  exists ((map_to_list (Tasks._tasks tasks)).*2). apply references_registered.
Qed.

(** *** Cycles *)

Lemma Return_references fuel this s u :
  toShellCommand h tasks (S fuel) this = Return s → references h tasks this u →
  ∃ s', toShellCommand h tasks fuel u = Return s'.
Proof.
  intros (cmd & Hloop & _)%toShellCommand_Return (step & n & Hin & Hn & Hu).
  destruct (for_of_Return _ _ _ _ _ Hloop step n Hin Hn) as (u' & s' & Hu' & Hs').
  assert (u' = u) as -> by congruence. eauto.
Qed.

Lemma Return_tc this u :
  tc (references h tasks) this u →
  ∀ fuel s, toShellCommand h tasks fuel this = Return s →
    ∃ fuel' s', fuel' < fuel ∧ toShellCommand h tasks fuel' u = Return s'.
Proof.
  induction 1 as [t u Hr|t u v Hr _ IH]; intros [|fuel] s Hs; try done.
  - destruct (Return_references _ _ _ _ Hs Hr) as [s' Hs']. exists fuel, s'. split; [lia|done].
  - destruct (Return_references _ _ _ _ Hs Hr) as [s' Hs'].
    destruct (IH _ _ Hs') as (fuel' & s'' & Hlt & Hs''). exists fuel', s''. split; [lia|done].
Qed.

Lemma cycle_never_returns this :
  tc (references h tasks) this this →
  ∀ fuel s, toShellCommand h tasks fuel this ≠ Return s.
Proof.
  intros Hcycle fuel. induction fuel as [fuel IH] using lt_wf_ind. intros s Hs.
  destruct (Return_tc _ _ Hcycle _ _ Hs) as (fuel' & s' & Hlt & Hs').
  by eapply IH.
Qed.

(** *** Errors *)

Lemma Error_origin fuel this msg :
  toShellCommand h tasks fuel this = Error msg →
  ∃ u n, rtc (references h tasks) this u ∧ unresolved h tasks u n ∧
         msg = "unable to resolve subtask " +:+ n.
Proof.
  revert this. induction fuel as [|fuel IH]; intros this; [done|].
  rewrite toShellCommand_Error. unfold cmd_array.
  intros (step & n & Hin & Hn & [[Hu ->]|(u & Hu & Herr)])%for_of_Error.
  - exists this, n. split; [done|]. split; [|done]. by exists step.
  - destruct (IH _ Herr) as (v & m & Hreach & Hv & ->).
    exists v, m. split; [|done]. eapply rtc_l; [|done]. by exists step, n.
Qed.

Lemma unresolved_never_returns this n :
  unresolved h tasks this n → ∀ fuel s, toShellCommand h tasks fuel this ≠ Return s.
Proof.
  intros (step & Hin & Hn & Hu) [|fuel] s; [done|].
  rewrite toShellCommand_Return. intros (cmd & Hloop & _).
  by eapply for_of_unresolved.
Qed.

Lemma resolvable_never_throws this :
  resolvable h tasks this → ∀ fuel msg, toShellCommand h tasks fuel this ≠ Error msg.
Proof.
  intros Hres fuel msg (u & n & Hreach & Hu & _)%Error_origin. by eapply Hres.
Qed.

End call_outcomes.

(** ** A task that runs itself *)

Lemma loop_references h t u : references h loop_tasks t u → u = task_loop.
Proof.
  intros (step & n & _ & _ & Hu). unfold Tasks.tryFind, loop_tasks in Hu. simpl in Hu.
  apply lookup_singleton_Some in Hu as [_ <-]. done.
Qed.

Lemma loop_cycle h :
  arr h 0 = [subtask "loop"] ∨ arr h 0 = [subtask "missing"; subtask "loop"] →
  tc (references h loop_tasks) task_loop task_loop.
Proof.
  intros Harr. apply tc_once. exists (subtask "loop"), "loop". split; [|done].
  change (Task._steps task_loop) with 0.
  destruct Harr as [-> | ->]; [by left|right; by left].
Qed.

Lemma loop_resolvable h :
  arr h 0 = [subtask "loop"] → resolvable h loop_tasks task_loop.
Proof.
  intros Harr u n Hreach (step & Hin & Hn & Hu).
  assert (∀ t v, tc (references h loop_tasks) t v → v = task_loop) as Htc.
  { induction 1 as [t v Hr|]; [|done]. by apply loop_references in Hr. }
  assert (u = task_loop) as ->.
  { apply rtc_tc in Hreach as [<-|Hreach]; [done|]. by eapply Htc. }
  change (Task._steps task_loop) with 0 in Hin. rewrite Harr in Hin.
  apply list_elem_of_singleton in Hin as ->. injection Hn as <-. done.
Qed.

Lemma loop_diverges h :
  arr h 0 = [subtask "loop"] →
  ∀ fuel, toShellCommand h loop_tasks fuel task_loop = OutOfFuel.
Proof.
  intros Harr fuel.
  destruct (toShellCommand h loop_tasks fuel task_loop) as [s|msg|] eqn:Hout; [| |done].
  - destruct (cycle_never_returns h loop_tasks task_loop (loop_cycle h (or_introl Harr)) fuel s Hout).
  - destruct (resolvable_never_throws h loop_tasks task_loop (loop_resolvable h Harr) fuel msg Hout).
Qed.

(** ** Unresolved subtasks *)

(** C4, amended: when a step of a task names, with a non-empty name, a
    subtask that [tryFind] does not find, [toShellCommand] returns no string
    at all; an error it throws is [unable to resolve subtask <m>] for a
    non-empty name [m] that some task met on the way asks for and [tryFind]
    does not find; it does throw when the task graph has no cycle, and as
    soon as the steps before that step render, the error is thrown for that
    step's own name. *)
Theorem C4_unresolved_subtask_throws h tasks this pre step post n :
  arr h (Task._steps this) = pre ++ step :: post →
  TaskStep.execTask step = Some n → n ≠ EmptyString →
  Tasks.tryFind tasks n = None →
  (∀ fuel s, toShellCommand h tasks fuel this ≠ Return s)
  ∧ (∀ fuel msg, toShellCommand h tasks fuel this = Error msg →
       ∃ u m, rtc (references h tasks) this u ∧ unresolved h tasks u m ∧
              m ≠ EmptyString ∧ msg = "unable to resolve subtask " +:+ m)
  ∧ (Irreflexive (tc (references h tasks)) →
       ∃ fuel u m, rtc (references h tasks) this u ∧ unresolved h tasks u m ∧
         toShellCommand h tasks fuel this = Error ("unable to resolve subtask " +:+ m))
  ∧ (∀ fuel cmd,
       for_of (step_commands tasks (toShellCommand h tasks fuel)) [] pre = Return cmd →
       toShellCommand h tasks (S fuel) this = Error ("unable to resolve subtask " +:+ n)).
Proof.
  intros Hsteps Hx Hne Hu.
  assert (truthy (TaskStep.execTask step) = Some n) as Hn by by apply truthy_Some.
  assert (unresolved h tasks this n) as Hun.
  { exists step. rewrite Hsteps. split; [|done]. apply elem_of_app. right. by left. }
  assert (∀ fuel msg, toShellCommand h tasks fuel this = Error msg →
       ∃ u m, rtc (references h tasks) this u ∧ unresolved h tasks u m ∧
              m ≠ EmptyString ∧ msg = "unable to resolve subtask " +:+ m) as Horigin.
  { intros fuel msg (u & m & Hreach & Hm & ->)%Error_origin.
    exists u, m. repeat split; try done.
    destruct Hm as (s & _ & Hs & _). by apply truthy_Some in Hs as [_ ?]. }
  split; [|split; [|split]].
  - by eapply unresolved_never_returns.
  - done.
  - intros Hirr.
    destruct (sn_terminates h tasks this (acyclic_sn h tasks this Hirr)) as [fuel Hfuel].
    destruct (toShellCommand h tasks fuel this) as [s|msg|] eqn:Hout.
    + by destruct (unresolved_never_returns h tasks this n Hun fuel s).
    + destruct (Horigin fuel msg Hout) as (u & m & Hreach & Hm & _ & ->).
      by exists fuel, u, m.
    + by destruct (Hfuel fuel).
  - intros fuel cmd Hpre. apply toShellCommand_Error. unfold cmd_array.
    rewrite Hsteps, for_of_app, Hpre. simpl.
    unfold step_commands. by rewrite Hn, Hu.
Qed.

Lemma C4_witness :
  toShellCommand (heap_of [(0, [inline "a"; subtask "lint"; inline "b"])] []) no_tasks 1
    (task_at "t" None 0)
  = Error "unable to resolve subtask lint".
Proof.
  apply (C4_unresolved_subtask_throws
           (heap_of [(0, [inline "a"; subtask "lint"; inline "b"])] []) no_tasks
           (task_at "t" None 0) [inline "a"] (subtask "lint") [inline "b"] "lint"
           eq_refl eq_refl ltac:(discriminate) eq_refl) with (cmd := ["a"]).
  reflexivity.
Defined.

(** C4 as stated fails for the empty name: a step that runs a task without
    a name is passed over, found or not, and the call returns a string.  It
    also fails behind a cycle: the call never comes to the unresolved step,
    and nothing is thrown. *)
Lemma C4_counterexample :
  (let h := heap_of [(0, [subtask EmptyString])] [] in
   TaskStep.execTask (subtask EmptyString) = Some EmptyString ∧
   Tasks.tryFind no_tasks EmptyString = None ∧
   toShellCommand h no_tasks 1 (task_at "t" None 0) = Return "(   )")
  ∧
  (let h := heap_of [(0, [subtask "loop"]); (1, [subtask "loop"; subtask "missing"])] [] in
   Tasks.tryFind loop_tasks "missing" = None ∧
   ∀ fuel, toShellCommand h loop_tasks fuel (task_at "t" None 1) = OutOfFuel).
Proof.
  split; [vm_compute; repeat split|]. intros h. split; [reflexivity|].
  intros [|fuel]; [done|]. apply toShellCommand_OutOfFuel. unfold cmd_array.
  change (arr h (Task._steps (task_at "t" None 1)))
    with [subtask "loop"; subtask "missing"].
  cbn [for_of]. unfold step_commands at 2.
  cbn [TaskStep.name TaskStep.exec TaskStep.execTask subtask truthy].
  change (Tasks.tryFind loop_tasks "loop") with (Some task_loop).
  cbv beta iota. by rewrite (loop_diverges h eq_refl).
Qed.

(** ** Subtasks *)

Lemma resolvable_renders h tasks this :
  sn (references h tasks) this → resolvable h tasks this →
  ∃ fuel s, toShellCommand h tasks (S fuel) this = Return s.
Proof.
  intros Hsn Hres. destruct (sn_terminates h tasks this Hsn) as [fuel Hfuel].
  destruct (toShellCommand h tasks (S fuel) this) as [s|msg|] eqn:Hout.
  - by exists fuel, s.
  - by destruct (resolvable_never_throws h tasks this Hres (S fuel) msg).
  - destruct (Hfuel (S fuel)); [lia|done].
Qed.

(** What a call returns is one grouped fragment. *)
Lemma rendered_is_grouped h tasks fuel this s :
  toShellCommand h tasks fuel this = Return s → ∃ inner, s = group inner.
Proof.
  destruct fuel as [|fuel]; [done|].
  intros (cmd & _ & ->)%toShellCommand_Return.
  exists (join EmptyString (lines h tasks this) +:+ " " +:+ withCondition this cmd).
  unfold group. by rewrite !append_assoc.
Qed.

(** C5, amended: when a step of [A] names, with a non-empty name, a task
    [B] of the registry and [A] renders, then [B] renders too, to a grouped
    fragment, and its whole output, grouped, is one element of the chain of
    [A], after the fragments of the steps before that step (and the step's
    own [echo] and command) and before those of the steps after it; [A] does
    render when the graph has no cycle and every reference met from [A]
    resolves. *)
Theorem C5_subtask_is_nested h tasks A pre step post n B :
  arr h (Task._steps A) = pre ++ step :: post →
  TaskStep.execTask step = Some n → n ≠ EmptyString →
  Tasks.tryFind tasks n = Some B →
  (∀ fuel s, toShellCommand h tasks (S fuel) A = Return s →
     ∃ sB before after,
       toShellCommand h tasks fuel B = Return sB
       ∧ (∃ inner, sB = group inner)
       ∧ for_of (step_commands tasks (toShellCommand h tasks fuel)) [] pre = Return before
       ∧ for_of (step_commands tasks (toShellCommand h tasks fuel)) [] post = Return after
       ∧ let own := echo (TaskStep.name step) ++ command (TaskStep.exec step) in
         cmd_array h tasks (S fuel) A = Return (before ++ own ++ [group sB] ++ after)
         ∧ s = "( " +:+ join EmptyString (lines h tasks A) +:+ " " +:+
               withCondition A (before ++ own ++ [group sB] ++ after) +:+ " )")
  ∧ (Irreflexive (tc (references h tasks)) → resolvable h tasks A →
     ∃ fuel s, toShellCommand h tasks (S fuel) A = Return s).
Proof.
  intros Hsteps Hx Hne HB.
  assert (truthy (TaskStep.execTask step) = Some n) as Hn by by apply truthy_Some.
  split.
  - intros fuel s (cmd & Hloop & ->)%toShellCommand_Return.
    unfold cmd_array in Hloop. rewrite Hsteps, for_of_app in Hloop.
    destruct (for_of _ [] pre) as [before| |] eqn:Hpre; simpl in Hloop; try done.
    destruct (step_commands_cases tasks (toShellCommand h tasks fuel) before step)
      as [[Hn' Hs]|[(n' & Hn' & Hu' & Hs)|(n' & u' & Hn' & Hu' & Hs)]];
      rewrite Hs in Hloop; try congruence.
    assert (n' = n) as -> by congruence. assert (u' = B) as -> by congruence.
    destruct (toShellCommand h tasks fuel B) as [sB| |] eqn:HsB; simpl in Hloop; try done.
    rewrite for_of_acc in Hloop.
    destruct (for_of _ [] post) as [after| |] eqn:Hpost; simpl in Hloop; try done.
    injection Hloop as <-. exists sB, before, after.
    split; [done|]. split; [by eapply rendered_is_grouped|].
    split; [done|]. split; [done|]. cbv zeta. split.
    + unfold cmd_array. rewrite Hsteps, for_of_app, Hpre. simpl. rewrite Hs. simpl.
      rewrite for_of_acc, Hpost. simpl. by rewrite <- !app_assoc.
    + by rewrite <- !app_assoc.
  - intros Hirr Hres. apply resolvable_renders; [|done]. by apply acyclic_sn.
Qed.

Lemma chain_references t u :
  references chain_heap chain_tasks t u → Task._steps t = 0 ∧ u = task_b.
Proof.
  intros (step & n & Hin & Hn & Hu). unfold arr, chain_heap, heap_of in Hin.
  simpl in Hin. destruct (decide (Task._steps t = 0)) as [Heq|Hne0].
  - split; [done|]. rewrite Heq, lookup_insert_eq in Hin. simpl in Hin.
    repeat (apply elem_of_cons in Hin as [->|Hin]); try done.
    + injection Hn as <-. vm_compute in Hu. by injection Hu as <-.
    + by apply elem_of_nil in Hin.
  - rewrite lookup_insert_ne in Hin by done.
    destruct (decide (Task._steps t = 1)) as [Heq|Hne1].
    + rewrite Heq, lookup_insert_eq in Hin. simpl in Hin.
      repeat (apply elem_of_cons in Hin as [->|Hin]); try done.
      by apply elem_of_nil in Hin.
    + rewrite lookup_insert_ne, lookup_empty in Hin by done.
      by apply elem_of_nil in Hin.
Qed.

Lemma chain_acyclic : Irreflexive (tc (references chain_heap chain_tasks)).
Proof.
  assert (∀ t u, tc (references chain_heap chain_tasks) t u →
                 Task._steps t = 0 ∧ u = task_b) as Htc.
  { induction 1 as [t u Hr|t u v Hr _ [_ ->]].
    - by apply chain_references.
    - split; [|done]. by apply chain_references in Hr as [? _]. }
  intros t Ht. destruct (Htc t t Ht) as [H0 ->]. done.
Qed.

Lemma chain_resolvable : resolvable chain_heap chain_tasks task_a.
Proof.
  intros u n Hreach (step & Hin & Hn & Hu).
  assert (u = task_a ∨ u = task_b) as [->| ->].
  { apply rtc_tc in Hreach as [<-|Htc]; [by left|right].
    clear Hin. induction Htc as [t u Hr|t u v Hr _ IH]; [|done].
    by apply chain_references in Hr as [_ ?]. }
  - change (arr chain_heap (Task._steps task_a))
      with [inline "first"; subtask "b"; inline "last"] in Hin.
    repeat (apply elem_of_cons in Hin as [->|Hin]); try done.
    + injection Hn as <-. by vm_compute in Hu.
    + by apply elem_of_nil in Hin.
  - change (arr chain_heap (Task._steps task_b)) with [inline "inner"] in Hin.
    repeat (apply elem_of_cons in Hin as [->|Hin]); try done.
    by apply elem_of_nil in Hin.
Qed.

Lemma C5_witness :
  (∃ sB before after,
     toShellCommand chain_heap chain_tasks 1 task_b = Return sB
     ∧ (∃ inner, sB = group inner)
     ∧ for_of (step_commands chain_tasks (toShellCommand chain_heap chain_tasks 1)) []
         [inline "first"] = Return before
     ∧ for_of (step_commands chain_tasks (toShellCommand chain_heap chain_tasks 1)) []
         [inline "last"] = Return after
     ∧ cmd_array chain_heap chain_tasks 2 task_a = Return (before ++ [] ++ [group sB] ++ after)
     ∧ "(  ( first ) && ( ( (  ( inner ) ) ) ) && ( last ) )" =
       "( " +:+ join EmptyString (lines chain_heap chain_tasks task_a) +:+ " " +:+
       withCondition task_a (before ++ [] ++ [group sB] ++ after) +:+ " )")
  ∧ ∃ fuel s, toShellCommand chain_heap chain_tasks (S fuel) task_a = Return s.
Proof.
  pose proof (C5_subtask_is_nested chain_heap chain_tasks task_a
                [inline "first"] (subtask "b") [inline "last"] "b" task_b
                eq_refl eq_refl ltac:(discriminate) eq_refl) as [Hnested Hrenders].
  split.
  - exact (Hnested 1 "(  ( first ) && ( ( (  ( inner ) ) ) ) && ( last ) )" eq_refl).
  - exact (Hrenders chain_acyclic chain_resolvable).
Defined.

(** C5 as stated fails for the empty name: the registry finds the task,
    and the renderer has passed the step over.  It also fails when another
    step of [A] does not render: there is no string for [B] to be in. *)
Lemma C5_counterexample :
  (let h := heap_of [(0, [subtask EmptyString]); (1, [inline "inner"])] [] in
   let B := task_at EmptyString None 1 in
   let tasks := {| Tasks._tasks := {[ EmptyString := B ]}; Tasks.env := [] |} in
   Tasks.tryFind tasks EmptyString = Some B ∧
   toShellCommand h tasks 1 B = Return "(  ( inner ) )" ∧
   cmd_array h tasks 2 (task_at "a" None 0) = Return [] ∧
   toShellCommand h tasks 2 (task_at "a" None 0) = Return "(   )")
  ∧
  (let h := heap_of [(0, [subtask "b"; subtask "missing"]); (1, [inline "inner"])] [] in
   Tasks.tryFind chain_tasks "b" = Some task_b ∧
   toShellCommand h chain_tasks 2 task_a = Error "unable to resolve subtask missing").
Proof. vm_compute. repeat split. Qed.

(** ** Termination *)

(** C7, amended: in a task graph without a cycle every call of
    [toShellCommand] terminates.  A call on a task that directly or
    transitively runs itself never returns a string; it does not terminate
    when every reference met on the way resolves. *)
Theorem C7_termination h tasks :
  (Irreflexive (tc (references h tasks)) →
   ∀ this, ∃ fuel, ∀ fuel', fuel ≤ fuel' →
     toShellCommand h tasks fuel' this ≠ OutOfFuel)
  ∧ (∀ this, tc (references h tasks) this this →
       (∀ fuel s, toShellCommand h tasks fuel this ≠ Return s)
       ∧ (resolvable h tasks this →
          ∀ fuel, toShellCommand h tasks fuel this = OutOfFuel)).
Proof.
  split.
  - intros Hirr this. apply sn_terminates. by apply acyclic_sn.
  - intros this Hcycle. split; [by apply cycle_never_returns|].
    intros Hres fuel. destruct (toShellCommand h tasks fuel this) as [s|msg|] eqn:Hout.
    + by destruct (cycle_never_returns h tasks this Hcycle fuel s).
    + by destruct (resolvable_never_throws h tasks this Hres fuel msg).
    + done.
Qed.

Lemma C7_witness :
  (∀ this, ∃ fuel, ∀ fuel', fuel ≤ fuel' →
     toShellCommand chain_heap chain_tasks fuel' this ≠ OutOfFuel)
  ∧ (∀ fuel, toShellCommand loop_heap loop_tasks fuel task_loop = OutOfFuel).
Proof.
  split.
  - exact (proj1 (C7_termination chain_heap chain_tasks) chain_acyclic).
  - exact (proj2 (proj2 (C7_termination loop_heap loop_tasks) task_loop
                    (loop_cycle loop_heap (or_introl eq_refl)))
             (loop_resolvable loop_heap eq_refl)).
Defined.

(** C7 as stated fails in its second half: a task that runs itself after a
    step naming an unregistered task ends with the error at every budget. *)
Lemma C7_counterexample :
  tc (references broken_loop_heap loop_tasks) task_loop task_loop ∧
  ∀ fuel, toShellCommand broken_loop_heap loop_tasks (S fuel) task_loop =
          Error "unable to resolve subtask missing".
Proof.
  split.
  - apply loop_cycle. by right.
  - intros fuel. reflexivity.
Qed.

(** ** Objects *)

Section objects.

Implicit Types (o l : JsObject) (k v : string).

Lemma obj_get_None k o : obj_get k o = None ↔ k ∉ o.*1.
Proof.
  induction o as [|[k' v'] o IH]; simpl.
  - split; [intros _; apply not_elem_of_nil|done].
  - rewrite not_elem_of_cons.
    destruct (decide (k' = k)) as [->|Hne].
    + split; [done|]. by intros [? _].
    + rewrite IH. split; [by intros ?; split|by intros [_ ?]].
Qed.

Lemma obj_get_elem_of k v o : obj_get k o = Some v → (k, v) ∈ o.
Proof.
  induction o as [|[k' v'] o IH]; simpl; [done|].
  destruct (decide (k' = k)) as [->|Hne].
  - intros [= ->]. by left.
  - intros Hget. right. by apply IH.
Qed.

Lemma obj_get_Some k v o : NoDup o.*1 → obj_get k o = Some v ↔ (k, v) ∈ o.
Proof.
  intros Hwf. split; [apply obj_get_elem_of|].
  induction o as [|[k' v'] o IH]; simpl.
  - by intros ?%elem_of_nil.
  - rewrite ?fmap_cons in Hwf. apply NoDup_cons in Hwf as [Hk' Hwf]. simpl in Hk'.
    intros [[= -> ->]|Hin]%elem_of_cons.
    + by rewrite decide_True.
    + rewrite decide_False; [by apply IH|].
      intros ->. apply Hk'. apply list_elem_of_fmap. by exists (k, v).
Qed.

Lemma obj_get_Permutation k o o' :
  NoDup o.*1 → o ≡ₚ o' → obj_get k o = obj_get k o'.
Proof.
  intros Hwf Hperm.
  assert (NoDup o'.*1) as Hwf' by by rewrite <- Hperm.
  destruct (obj_get k o) as [v|] eqn:Hget.
  - symmetry. apply obj_get_Some; [done|]. rewrite <- Hperm. by apply obj_get_Some.
  - symmetry. apply obj_get_None. rewrite <- Hperm. by apply obj_get_None.
Qed.

Lemma obj_define_fresh k v o : obj_get k o = None → obj_define k v o = o ++ [(k, v)].
Proof.
  induction o as [|[k' v'] o IH]; simpl; [done|].
  destruct (decide (k' = k)); [done|]. intros Hget. by rewrite IH.
Qed.

Lemma obj_define_present k v o :
  NoDup o.*1 → obj_get k o ≠ None →
  obj_define k v o = (λ kv, if decide (kv.1 = k) then (k, v) else kv) <$> o.
Proof.
  induction o as [|[k' v'] o IH]; simpl; [done|].
  rewrite ?fmap_cons. intros [Hk' Hwf]%NoDup_cons. simpl in Hk'.
  destruct (decide (k' = k)) as [->|Hne]; simpl.
  - intros _. f_equal. symmetry. rewrite <- (list_fmap_id o) at 2.
    apply list_fmap_ext. intros i [k1 v1] Hi. simpl.
    rewrite decide_False; [done|]. intros ->. apply Hk'.
    apply list_elem_of_fmap. exists (k, v1). split; [done|].
    by eapply list_elem_of_lookup_2.
  - intros Hget. by rewrite IH.
Qed.

Lemma obj_define_keys k v o :
  (obj_define k v o).*1 = if decide (obj_get k o = None) then o.*1 ++ [k] else o.*1.
Proof.
  induction o as [|[k' v'] o IH]; cbn [obj_define obj_get]; [done|].
  destruct (decide (k' = k)) as [->|Hne].
  - by case_decide.
  - rewrite !fmap_cons, IH. cbn [fst]. by destruct (decide (obj_get k o = None)).
Qed.

Lemma obj_define_wf k v o : NoDup o.*1 → NoDup (obj_define k v o).*1.
Proof.
  intros Hwf. rewrite obj_define_keys. destruct (decide _) as [Hget|]; [|done].
  apply NoDup_app. split; [done|]. split; [|apply NoDup_singleton].
  intros k' Hk' ->%list_elem_of_singleton. by apply obj_get_None in Hget.
Qed.

Lemma obj_get_define k k' v o :
  obj_get k' (obj_define k v o) = if decide (k = k') then Some v else obj_get k' o.
Proof.
  induction o as [|[k0 v0] o IH]; simpl.
  - done.
  - destruct (decide (k0 = k)) as [->|Hne]; simpl.
    + by destruct (decide (k = k')).
    + rewrite IH. destruct (decide (k0 = k')) as [->|]; [|done].
      by rewrite decide_False.
Qed.

Lemma foldl_define_wf o l : NoDup o.*1 → NoDup (foldl define_entry o l).*1.
Proof.
  revert o. induction l as [|[k v] l IH]; intros o Hwf; simpl; [done|].
  apply IH. by apply obj_define_wf.
Qed.

Lemma obj_get_foldl_define k o l :
  NoDup l.*1 →
  obj_get k (foldl define_entry o l) =
  match obj_get k l with Some v => Some v | None => obj_get k o end.
Proof.
  revert o. induction l as [|[k' v'] l IH]; intros o; simpl; [done|].
  rewrite ?fmap_cons. intros [Hk' Hwf]%NoDup_cons. simpl in Hk'.
  rewrite IH by done. unfold define_entry at 1. simpl. rewrite obj_get_define.
  destruct (decide (k' = k)) as [->|Hne]; [|done].
  apply obj_get_None in Hk'. by rewrite Hk'.
Qed.

End objects.

Lemma filter_ext_in {A} (P Q : A → Prop)
    `{!∀ x, Decision (P x), !∀ x, Decision (Q x)} (l : list A) :
  (∀ x, x ∈ l → P x ↔ Q x) → filter P l = filter Q l.
Proof.
  induction l as [|x l IH]; intros HPQ; [done|].
  rewrite !filter_cons.
  rewrite IH by (intros y Hy; apply HPQ; by right).
  destruct (decide (P x)) as [HP|HP], (decide (Q x)) as [HQ|HQ]; try done.
  - destruct HQ. apply HPQ; [by left|done].
  - destruct HP. apply HPQ; [by left|done].
Qed.

Lemma filter_none {A} (P : A → Prop) `{!∀ x, Decision (P x)} (l : list A) :
  Forall (λ x, ¬ P x) l → filter P l = [].
Proof. induction 1; [done|]. by rewrite filter_cons_False. Qed.

Section spread.

Implicit Types (o l : JsObject) (k v : string).

(** What a spread of distinct entries makes of an object: the entries it
    had keep their places and take the new values, the new keys follow in
    the order of the spread. *)
Lemma foldl_define_spec o l :
  NoDup o.*1 → NoDup l.*1 →
  foldl define_entry o l =
  (overridden l <$> o) ++ filter (λ kv, obj_get kv.1 o = None) l.
Proof.
  revert o. induction l as [|[k v] l IH]; intros o Hwo Hwl.
  - simpl. rewrite app_nil_r. rewrite <- (list_fmap_id o) at 1.
    apply list_fmap_ext. by intros i [k v] _.
  - rewrite fmap_cons in Hwl. apply NoDup_cons in Hwl as [Hk Hwl]. cbn [fst] in Hk.
    assert (obj_get k l = None) as Hkl by by apply obj_get_None.
    cbn [foldl]. rewrite IH by (try done; by apply obj_define_wf).
    unfold define_entry. cbn [fst snd].
    destruct (obj_get k o) as [w|] eqn:Hko.
    + rewrite filter_cons_False by (cbn [fst]; congruence).
      f_equal.
      * rewrite obj_define_present by (try done; congruence).
        rewrite <- list_fmap_compose. apply list_fmap_ext.
        intros i [k1 v1] Hi. unfold overridden, compose. cbn [fst snd obj_get].
        destruct (decide (k1 = k)) as [->|Hne]; cbn [fst snd].
        -- by rewrite Hkl, decide_True.
        -- by rewrite decide_False by congruence.
      * apply filter_ext_in. intros [k1 v1] Hin. cbn [fst].
        rewrite !obj_get_None, obj_define_keys.
        by rewrite decide_False by congruence.
    + rewrite filter_cons_True by done.
      rewrite obj_define_fresh by done. rewrite fmap_app, <- app_assoc. f_equal.
      * apply list_fmap_ext. intros i [k1 v1] Hi.
        unfold overridden. cbn [fst snd obj_get].
        rewrite decide_False; [done|]. intros ->.
        apply obj_get_None in Hko. apply Hko.
        apply list_elem_of_fmap. exists (k1, v1). split; [done|].
        by eapply list_elem_of_lookup_2.
      * cbn [fmap list_fmap app]. unfold overridden at 1. cbn [fst snd].
        rewrite Hkl. cbn [default from_option]. f_equal.
        apply filter_ext_in. intros [k1 v1] Hin. cbn [fst].
        rewrite !obj_get_None, fmap_app, not_elem_of_app.
        split; [by intros [? _]|]. intros Hk1. split; [done|].
        intros ->%list_elem_of_singleton. apply Hk.
        apply list_elem_of_fmap. by exists (k, v1).
Qed.

End spread.

(** ** Enumeration order *)

Global Instance index_le_total : Total index_le.
Proof. intros x y. unfold index_le. lia. Qed.

Global Instance index_le_trans : Transitive index_le.
Proof. intros x y z. unfold index_le. lia. Qed.

Section entries.

Implicit Types (o : JsObject).

Lemma index_properties_snd o :
  (index_properties o).*2 = filter (λ kv, is_Some (array_index kv.1)) o.
Proof.
  unfold index_properties. induction o as [|[k v] o IH]; [done|].
  rewrite filter_cons. csimpl.
  destruct (array_index k) as [i|] eqn:Hi; csimpl.
  - f_equal. apply IH.
  - apply IH.
Qed.

Lemma index_properties_tag o :
  Forall (λ x, array_index x.2.1 = Some x.1) (index_properties o).
Proof.
  apply Forall_forall. intros [i [k v]] Hin.
  apply list_elem_of_omap in Hin as ([k' v'] & _ & Hx). cbn [fst snd] in *.
  destruct (array_index k') as [j|] eqn:Hj; [|done].
  by injection Hx as -> -> ->.
Qed.

Lemma index_properties_named o :
  Forall (λ kv, array_index kv.1 = None) o → index_properties o = [].
Proof.
  unfold index_properties. induction 1 as [|[k v] o Hk _ IH]; [done|].
  csimpl. cbn [fst] in Hk. rewrite Hk. apply IH.
Qed.

Lemma named_properties_named o :
  Forall (λ kv, array_index kv.1 = None) o → named_properties o = o.
Proof.
  unfold named_properties. induction 1 as [|kv o Hk _ IH]; [done|].
  by rewrite filter_cons_True, IH.
Qed.

Lemma entries_Permutation o : entries o ≡ₚ o.
Proof.
  unfold entries, named_properties.
  rewrite merge_sort_Permutation, index_properties_snd.
  rewrite (list_filter_iff (λ kv, array_index kv.1 = None)
             (λ kv, ¬ is_Some (array_index kv.1))).
  - apply filter_app_complement.
  - intros kv. by rewrite eq_None_not_Some.
Qed.

Lemma entries_named o :
  Forall (λ kv, array_index kv.1 = None) o → entries o = o.
Proof.
  intros Ho. unfold entries.
  by rewrite index_properties_named, named_properties_named.
Qed.

Lemma entries_wf o : NoDup o.*1 → NoDup (entries o).*1.
Proof. by rewrite entries_Permutation. Qed.

Lemma obj_get_entries k o : NoDup o.*1 → obj_get k (entries o) = obj_get k o.
Proof.
  intros Hwf. symmetry. apply obj_get_Permutation; [done|].
  symmetry. apply entries_Permutation.
Qed.

(** The array indices of an enumeration come first and ascend. *)
Lemma entries_index_sorted o :
  ∃ ixs, array_index <$> (merge_sort index_le (index_properties o)).*2.*1 = Some <$> ixs
         ∧ StronglySorted N.le ixs.
Proof.
  exists (merge_sort index_le (index_properties o)).*1. split.
  - assert (Forall (λ x, array_index x.2.1 = Some x.1)
              (merge_sort index_le (index_properties o))) as Htag.
    { rewrite merge_sort_Permutation. apply index_properties_tag. }
    induction Htag as [|x l Hx _ IH]; [done|].
    rewrite !fmap_cons. by rewrite Hx, IH.
  - apply (StronglySorted_fmap fst index_le); [done|].
    apply StronglySorted_merge_sort; apply _.
Qed.

Lemma named_properties_entries o : named_properties (entries o) = named_properties o.
Proof.
  unfold entries, named_properties at 1. rewrite filter_app.
  replace (filter _ (merge_sort index_le (index_properties o)).*2) with (@nil (string * string)).
  - simpl. unfold named_properties. apply list_filter_filter_l. done.
  - symmetry. apply filter_none, Forall_forall.
    intros kv Hin Hnone.
    apply list_elem_of_fmap in Hin as ([i kv'] & -> & Hin).
    rewrite merge_sort_Permutation in Hin.
    pose proof (index_properties_tag o) as Htag.
    rewrite Forall_forall in Htag. specialize (Htag _ Hin). cbn [fst snd] in *. congruence.
Qed.

End entries.

Lemma filter_all {A} (P : A → Prop) `{!∀ x, Decision (P x)} (l : list A) :
  Forall P l → filter P l = l.
Proof. induction 1 as [|x l Hx _ IH]; [done|]. by rewrite filter_cons_True, IH. Qed.

(** ** The merged environment *)

Section merged_env.

Context (h : heap) (tasks : Tasks.t) (this : Task.t).

Lemma spread_empty o : NoDup o.*1 → spread o [] = entries o.
Proof.
  intros Hwf. unfold spread.
  rewrite foldl_define_spec by (try apply NoDup_nil_2; by apply entries_wf).
  simpl. apply filter_all, Forall_forall. done.
Qed.

Lemma merged_env_wf : NoDup (merged_env h tasks this).*1.
Proof. unfold merged_env, spread. apply foldl_define_wf, foldl_define_wf, NoDup_nil_2. Qed.

Lemma merged_env_get k :
  obj_wf (Tasks.env tasks) → obj_wf (obj h (Task._env this)) →
  obj_get k (merged_env h tasks this) =
  match obj_get k (obj h (Task._env this)) with
  | Some v => Some v
  | None => obj_get k (Tasks.env tasks)
  end.
Proof.
  intros Hbase Hown. unfold merged_env, spread.
  rewrite !obj_get_foldl_define by by apply entries_wf.
  rewrite !obj_get_entries by done. simpl.
  by destruct (obj_get k (Tasks.env tasks)).
Qed.

Lemma merged_env_spec :
  obj_wf (Tasks.env tasks) → obj_wf (obj h (Task._env this)) →
  merged_env h tasks this =
  (overridden (obj h (Task._env this)) <$> entries (Tasks.env tasks)) ++
  filter (λ kv, obj_get kv.1 (Tasks.env tasks) = None) (entries (obj h (Task._env this))).
Proof.
  intros Hbase Hown. unfold merged_env. rewrite spread_empty by done.
  unfold spread. rewrite foldl_define_spec by by apply entries_wf. f_equal.
  - apply list_fmap_ext. intros i kv _. unfold overridden.
    by rewrite obj_get_entries.
  - apply list_filter_iff. intros kv. by rewrite obj_get_entries.
Qed.

Lemma named_properties_overridden own (l : JsObject) :
  named_properties (overridden own <$> l) = overridden own <$> named_properties l.
Proof.
  unfold named_properties. induction l as [|[k v] l IH]; [done|].
  rewrite fmap_cons, !filter_cons. cbn [overridden fst].
  destruct (decide (array_index k = None)); rewrite IH; done.
Qed.

Lemma named_properties_filter (P : string * string → Prop)
    `{!∀ x, Decision (P x)} (l : JsObject) :
  named_properties (filter P l) = filter P (named_properties l).
Proof.
  unfold named_properties. rewrite !list_filter_filter.
  apply list_filter_iff. intros kv. tauto.
Qed.

Lemma named_properties_app (l1 l2 : JsObject) :
  named_properties (l1 ++ l2) = named_properties l1 ++ named_properties l2.
Proof. apply filter_app. Qed.

Lemma merged_env_named :
  obj_wf (Tasks.env tasks) → obj_wf (obj h (Task._env this)) →
  named_properties (merged_env h tasks this) =
  named_properties (insertion_order_merge (Tasks.env tasks) (obj h (Task._env this))).
Proof.
  intros Hbase Hown. rewrite merged_env_spec by done.
  unfold insertion_order_merge.
  rewrite !named_properties_app, !named_properties_overridden,
    !named_properties_filter, !named_properties_entries.
  done.
Qed.

Lemma merged_env_elem_of k v :
  obj_wf (Tasks.env tasks) → obj_wf (obj h (Task._env this)) →
  (k, v) ∈ entries (merged_env h tasks this) ↔
  obj_get k (obj h (Task._env this)) = Some v
  ∨ (obj_get k (obj h (Task._env this)) = None ∧ obj_get k (Tasks.env tasks) = Some v).
Proof.
  intros Hbase Hown. rewrite entries_Permutation.
  rewrite <- obj_get_Some by apply merged_env_wf.
  rewrite merged_env_get by done.
  destruct (obj_get k (obj h (Task._env this))) as [w|]; split.
  - intros [= ->]. by left.
  - by intros [[= ->]|[[=] _]].
  - intros Hget. by right.
  - by intros [[=]|[_ Hget]].
Qed.

Lemma merged_env_no_index :
  obj_wf (Tasks.env tasks) → obj_wf (obj h (Task._env this)) →
  Forall (λ k, array_index k = None) ((Tasks.env tasks).*1 ++ (obj h (Task._env this)).*1) →
  entries (merged_env h tasks this) =
  insertion_order_merge (Tasks.env tasks) (obj h (Task._env this)).
Proof.
  intros Hbase Hown [Hb Ho]%Forall_app.
  rewrite Forall_fmap in Hb, Ho.
  change (Forall (λ kv : string * string, array_index kv.1 = None) (Tasks.env tasks)) in Hb.
  change (Forall (λ kv : string * string, array_index kv.1 = None)
            (obj h (Task._env this))) in Ho.
  rewrite merged_env_spec by done.
  rewrite (entries_named (Tasks.env tasks)), (entries_named (obj h (Task._env this))) by done.
  fold (insertion_order_merge (Tasks.env tasks) (obj h (Task._env this))).
  apply entries_named. unfold insertion_order_merge.
  apply Forall_app. split.
  - rewrite Forall_fmap. eapply Forall_impl; [exact Hb|]. by intros [k v].
  - rewrite Forall_forall in Ho. apply Forall_forall.
    intros kv [_ Hin]%list_elem_of_filter. by apply Ho.
Qed.

End merged_env.

(** C2, amended: the assignments of a rendering are those of the entries
    [E] of the merged map.  [E] has one entry per key: every entry of the
    task, and every registry entry whose key the task does not have (the
    task wins on every common key).  Their order is the enumeration order of
    the merged map: first the keys that are array indices, ascending, then
    the other keys in insertion order, registry entries first; it is the
    insertion order as a whole when no key is an array index. *)
Theorem C2_environment_assignments h tasks fuel this :
  obj_wf (Tasks.env tasks) → obj_wf (obj h (Task._env this)) →
  let base := Tasks.env tasks in
  let own := obj h (Task._env this) in
  ∃ E idx ixs,
    toShellCommand h tasks fuel this =
      (cmd ← cmd_array h tasks fuel this;
       Return ("( " +:+ join EmptyString (assignment <$> E) +:+ " " +:+
               withCondition this cmd +:+ " )"))
    ∧ lines h tasks this = assignment <$> E
    ∧ NoDup E.*1
    ∧ (∀ k v, (k, v) ∈ E ↔
         obj_get k own = Some v ∨ (obj_get k own = None ∧ obj_get k base = Some v))
    ∧ E = idx ++ named_properties (insertion_order_merge base own)
    ∧ array_index <$> idx.*1 = Some <$> ixs
    ∧ StronglySorted N.le ixs
    ∧ (Forall (λ k, array_index k = None) (base.*1 ++ own.*1) →
       E = insertion_order_merge base own).
Proof.
  intros Hbase Hown base own.
  destruct (entries_index_sorted (merged_env h tasks this)) as (ixs & Hixs & Hsorted).
  exists (entries (merged_env h tasks this)),
    (merge_sort index_le (index_properties (merged_env h tasks this))).*2, ixs.
  split; [apply toShellCommand_unfold|]. split; [done|].
  split; [apply entries_wf, merged_env_wf|].
  split; [intros k v; by apply merged_env_elem_of|].
  split; [unfold entries; by rewrite merged_env_named|].
  split; [done|]. split; [done|].
  by apply merged_env_no_index.
Qed.

Lemma C2_witness :
  let h := heap_of [(0, [])] [(0, [("NODE_ENV", "test"); ("CI", "1")])] in
  let tasks := {| Tasks._tasks := ∅; Tasks.env := [("PATH", "bin"); ("NODE_ENV", "dev")] |} in
  lines h tasks (task_at "t" None 0) =
    assignment <$> [("PATH", "bin"); ("NODE_ENV", "test"); ("CI", "1")].
Proof.
  intros h tasks.
  destruct (C2_environment_assignments h tasks 1 (task_at "t" None 0))
    as (E & idx & ixs & _ & Hlines & _ & _ & _ & _ & _ & Horder).
  - unfold obj_wf. apply (bool_decide_unpack _). vm_compute. reflexivity.
  - unfold obj_wf. apply (bool_decide_unpack _). vm_compute. reflexivity.
  - rewrite Hlines, Horder; [vm_compute; reflexivity|].
    apply (bool_decide_unpack _). vm_compute. reflexivity.
Defined.

(** C2 as stated fails in its order: a task entry whose name is an array
    index is assigned before the registry's entries. *)
Lemma C2_counterexample :
  let h := heap_of [(0, [])] [(0, [("1", "y")])] in
  let tasks := {| Tasks._tasks := ∅; Tasks.env := [("b", "x")] |} in
  lines h tasks (task_at "t" None 0) = [assignment ("1", "y"); assignment ("b", "x")]
  ∧ assignment <$> insertion_order_merge (Tasks.env tasks) (obj h 0) =
    [assignment ("b", "x"); assignment ("1", "y")]
  ∧ toShellCommand h tasks 1 (task_at "t" None 0) =
    Return ("( 1=" +:+ dquote +:+ "y" +:+ dquote +:+ "; b=" +:+ dquote +:+ "x" +:+ dquote +:+ ";   )").
Proof. vm_compute. repeat split. Qed.

(** ** Step-local environments *)

(** C3, amended: the precedence applied by a rendering is registry base
    environment, then task-level environment.  The environment map of a
    step is not read: two heaps that differ only there render alike. *)
Theorem C3_step_environment_is_not_read h h' tasks this :
  obj_wf (Tasks.env tasks) → obj_wf (obj h (Task._env this)) →
  (∀ n u, Tasks.tryFind tasks n = Some u → same_task h h' u) →
  same_task h h' this →
  (∀ fuel, toShellCommand h tasks fuel this = toShellCommand h' tasks fuel this)
  ∧ (∀ k, obj_get k (merged_env h tasks this) =
          match obj_get k (obj h (Task._env this)) with
          | Some v => Some v
          | None => obj_get k (Tasks.env tasks)
          end).
Proof.
  intros Hbase Hown Hreg Hthis. split.
  - intros fuel. by apply toShellCommand_same_task.
  - intros k. by apply merged_env_get.
Qed.

Lemma C3_witness :
  let step e := TaskStep.mk None e (Some "run") None in
  let h := heap_of [(0, [step (Some [("FOO", "step")])])] [(0, [("FOO", "task")])] in
  let h' := heap_of [(0, [step None])] [(0, [("FOO", "task")])] in
  toShellCommand h no_tasks 1 (task_at "t" None 0) =
  toShellCommand h' no_tasks 1 (task_at "t" None 0).
Proof.
  intros step h h'.
  refine (proj1 (C3_step_environment_is_not_read h h' no_tasks (task_at "t" None 0) _ _ _ _) 1).
  - unfold obj_wf. apply (bool_decide_unpack _). vm_compute. reflexivity.
  - unfold obj_wf. apply (bool_decide_unpack _). vm_compute. reflexivity.
  - intros n u Hu. unfold Tasks.tryFind in Hu. simpl in Hu.
    rewrite lookup_empty in Hu. discriminate.
  - split; [reflexivity|].
    change (arr h (Task._steps (task_at "t" None 0))) with [step (Some [("FOO", "step")])].
    change (arr h' (Task._steps (task_at "t" None 0))) with [step None].
    repeat constructor.
Defined.

(** C3 as stated fails: the value that a step gives to [FOO] reaches
    neither the fragment of that step nor the assignments of the task. *)
Lemma C3_counterexample :
  let step := TaskStep.mk None (Some [("FOO", "step")]) (Some "run") None in
  let h := heap_of [(0, [step])] [(0, [("FOO", "task")])] in
  TaskStep.env step = Some [("FOO", "step")] ∧
  cmd_array h no_tasks 1 (task_at "t" None 0) = Return ["run"] ∧
  toShellCommand h no_tasks 1 (task_at "t" None 0) =
    Return ("( FOO=" +:+ dquote +:+ "task" +:+ dquote +:+ ";  ( run ) )").
Proof. vm_compute. repeat split. Qed.

(** * Further properties of the methods *)

(** ** What a call leaves alone *)

Lemma for_of_render_ext tasks r1 r2 a :
  (∀ step n u, step ∈ a → truthy (TaskStep.execTask step) = Some n →
               Tasks.tryFind tasks n = Some u → r1 u = r2 u) →
  ∀ cmd, for_of (step_commands tasks r1) cmd a = for_of (step_commands tasks r2) cmd a.
Proof.
  induction a as [|step a IH]; intros Hr cmd; [done|]. cbn [for_of].
  assert (step_commands tasks r1 cmd step = step_commands tasks r2 cmd step) as ->.
  { unfold step_commands.
    destruct (truthy (TaskStep.execTask step)) as [n|] eqn:Hn; [|done].
    destruct (Tasks.tryFind tasks n) as [u|] eqn:Hu; [|done].
    rewrite (Hr step n u); [done|by left|done|done]. }
  destruct (step_commands tasks r2 cmd step); simpl; [|done|done].
  apply IH. intros s n u Hs. apply Hr. by right.
Qed.

(** A rendering reads the steps and the environment of the tasks that can
    be reached, and nothing else of the heap. *)
Lemma toShellCommand_frame h h' tasks fuel this :
  (∀ u, rtc (references h tasks) this u →
        arr h' (Task._steps u) = arr h (Task._steps u) ∧
        obj h' (Task._env u) = obj h (Task._env u)) →
  toShellCommand h' tasks fuel this = toShellCommand h tasks fuel this.
Proof.
  revert this. induction fuel as [|fuel IH]; intros this Hsame; [done|].
  destruct (Hsame this) as [Hsteps Henv]; [done|].
  cbn [toShellCommand]. unfold lines, merged_env. rewrite Hsteps, Henv.
  rewrite (for_of_render_ext tasks (toShellCommand h' tasks fuel) (toShellCommand h tasks fuel));
    [done|].
  intros step n u Hin Hn Hu. apply IH. intros v Hv. apply Hsame.
  eapply rtc_l; [|done]. by exists step, n.
Qed.

Lemma set_arr_frame h tasks fuel this l a :
  (∀ u, tc (references h tasks) this u → Task._steps u ≠ l) →
  for_of (step_commands tasks (toShellCommand (set_arr l a h) tasks fuel)) []
    (arr h (Task._steps this)) =
  for_of (step_commands tasks (toShellCommand h tasks fuel)) [] (arr h (Task._steps this)).
Proof.
  intros Hfar. apply for_of_render_ext. intros step n u Hin Hn Hu.
  apply toShellCommand_frame. intros v Hv. split; [|done].
  apply arr_set_arr_ne. intros Heq. apply (Hfar v); [|done].
  eapply tc_rtc_r; [|done]. apply tc_once. by exists step, n.
Qed.

Lemma lines_set_arr h tasks this l a :
  lines (set_arr l a h) tasks this = lines h tasks this.
Proof. done. Qed.

(** The rendering after a step was pushed or unshifted, from the rendering
    before. *)
Lemma push_step_chain h tasks fuel this step :
  (∀ u, tc (references h tasks) this u → Task._steps u ≠ Task._steps this) →
  cmd_array (set_arr (Task._steps this) (push step (arr h (Task._steps this))) h)
    tasks (S fuel) this =
  (cmd ← cmd_array h tasks (S fuel) this;
   step_commands tasks
     (toShellCommand (set_arr (Task._steps this) (push step (arr h (Task._steps this))) h)
        tasks fuel) cmd step).
Proof.
  intros Hfar. unfold cmd_array. rewrite arr_set_arr_eq. unfold push at 2.
  rewrite for_of_app, set_arr_frame by done.
  destruct (for_of _ [] (arr h (Task._steps this))) as [cmd| |]; simpl; [|done|done].
  by destruct (step_commands _ _ cmd step).
Qed.

Lemma unshift_step_chain h tasks fuel this step :
  (∀ u, tc (references h tasks) this u → Task._steps u ≠ Task._steps this) →
  truthy (TaskStep.execTask step) = None →
  cmd_array (set_arr (Task._steps this) (unshift step (arr h (Task._steps this))) h)
    tasks (S fuel) this =
  (cmd ← cmd_array h tasks (S fuel) this;
   Return (echo (TaskStep.name step) ++ command (TaskStep.exec step) ++ cmd)).
Proof.
  intros Hfar Hn. unfold cmd_array. rewrite arr_set_arr_eq. unfold unshift.
  cbn [for_of].
  destruct (step_commands_cases tasks
              (toShellCommand (set_arr (Task._steps this) (step :: arr h (Task._steps this)) h)
                 tasks fuel) [] step)
    as [[_ ->]|[(n & Hn' & _)|(n & u & Hn' & _)]]; [|congruence|congruence].
  cbn [mbind outcome_bind]. rewrite for_of_acc, set_arr_frame by done.
  destruct (for_of _ [] (arr h (Task._steps this))) as [cmd| |]; simpl; [|done|done].
  by rewrite <- app_assoc.
Qed.

Lemma toShellCommand_of_chain h h' tasks fuel this (k : list string → outcome (list string)) :
  lines h' tasks this = lines h tasks this →
  cmd_array h' tasks (S fuel) this = (cmd ← cmd_array h tasks (S fuel) this; k cmd) →
  toShellCommand h' tasks (S fuel) this =
  (cmd ← cmd_array h tasks (S fuel) this; cmd' ← k cmd;
   Return ("( " +:+ join EmptyString (lines h tasks this) +:+ " " +:+
           withCondition this cmd' +:+ " )")).
Proof.
  intros Hlines Hcmd. rewrite toShellCommand_unfold, Hcmd, Hlines.
  by destruct (cmd_array h tasks (S fuel) this).
Qed.

Lemma chain_far u :
  tc (references chain_heap chain_tasks) task_a u → Task._steps u ≠ Task._steps task_a.
Proof.
  intros Htc.
  assert (u = task_b) as ->; [|done].
  induction Htc as [t u Hr|t u v Hr _ IH]; [|done].
  by apply chain_references in Hr as [_ ?].
Qed.

(** ** Adding steps *)

(** X1: on a task that none of its subtasks shares its step array with,
    [exec(c, options)] keeps the chain that was rendered before and adds at
    its end the [echo] of the name, if any, and the command, if not empty. *)
Theorem exec_extends_chain h tasks fuel this c options :
  (∀ u, tc (references h tasks) this u → Task._steps u ≠ Task._steps this) →
  let h1 := Task.exec c options this h in
  let added := echo (TaskStepOptions.name options) ++ command (Some c) in
  cmd_array h1 tasks (S fuel) this =
    (cmd ← cmd_array h tasks (S fuel) this; Return (cmd ++ added))
  ∧ toShellCommand h1 tasks (S fuel) this =
    (cmd ← cmd_array h tasks (S fuel) this;
     Return ("( " +:+ join EmptyString (lines h tasks this) +:+ " " +:+
             withCondition this (cmd ++ added) +:+ " )")).
Proof.
  intros Hfar h1 added.
  assert (cmd_array h1 tasks (S fuel) this =
          (cmd ← cmd_array h tasks (S fuel) this; Return (cmd ++ added))) as Hcmd.
  { subst h1. unfold Task.exec. rewrite push_step_chain by done.
    destruct (cmd_array h tasks (S fuel) this) as [cmd| |]; [|done|done].
    cbn [mbind outcome_bind].
    by destruct (step_commands_cases tasks
                   (toShellCommand
                      (set_arr (Task._steps this)
                         (push {| TaskStep.name := TaskStepOptions.name options;
                                  TaskStep.env := TaskStepOptions.env options;
                                  TaskStep.exec := Some c;
                                  TaskStep.execTask := None |}
                            (arr h (Task._steps this))) h) tasks fuel) cmd
                   {| TaskStep.name := TaskStepOptions.name options;
                      TaskStep.env := TaskStepOptions.env options;
                      TaskStep.exec := Some c;
                      TaskStep.execTask := None |})
      as [[_ ->]|[(n & [=] & _)|(n & u & [=] & _)]]. }
  split; [done|].
  rewrite (toShellCommand_of_chain h h1 tasks fuel this (λ cmd, Return (cmd ++ added)));
    [|done|done].
  by destruct (cmd_array h tasks (S fuel) this).
Qed.

Lemma exec_extends_chain_witness :
  toShellCommand chain_heap chain_tasks 2 task_a =
    Return "(  ( first ) && ( ( (  ( inner ) ) ) ) && ( last ) )" ∧
  toShellCommand (Task.exec "after" (TaskStepOptions.mk (Some "end") None) task_a chain_heap)
    chain_tasks 2 task_a =
    Return "(  ( first ) && ( ( (  ( inner ) ) ) ) && ( last ) && ( echo end ) && ( after ) )".
Proof.
  split; [vm_compute; reflexivity|].
  pose proof (exec_extends_chain chain_heap chain_tasks 1 task_a "after"
                (TaskStepOptions.mk (Some "end") None) chain_far) as H.
  cbv zeta in H. destruct H as [_ ->]. vm_compute. reflexivity.
Defined.

(** X2: on such a task, [prepend(c, options)] keeps the chain that was
    rendered before and puts in front of it the [echo] of the name, if any,
    and the command, if not empty: they come before every fragment there
    was. *)
Theorem prepend_extends_chain h tasks fuel this c options :
  (∀ u, tc (references h tasks) this u → Task._steps u ≠ Task._steps this) →
  let h1 := Task.prepend c options this h in
  let added := echo (TaskStepOptions.name options) ++ command (Some c) in
  cmd_array h1 tasks (S fuel) this =
    (cmd ← cmd_array h tasks (S fuel) this; Return (added ++ cmd))
  ∧ toShellCommand h1 tasks (S fuel) this =
    (cmd ← cmd_array h tasks (S fuel) this;
     Return ("( " +:+ join EmptyString (lines h tasks this) +:+ " " +:+
             withCondition this (added ++ cmd) +:+ " )")).
Proof.
  intros Hfar h1 added.
  assert (cmd_array h1 tasks (S fuel) this =
          (cmd ← cmd_array h tasks (S fuel) this; Return (added ++ cmd))) as Hcmd.
  { subst h1 added. unfold Task.prepend. rewrite unshift_step_chain by done.
    destruct (cmd_array h tasks (S fuel) this) as [cmd| |]; [|done|done].
    cbn [mbind outcome_bind TaskStep.name TaskStep.exec]. by rewrite <- app_assoc. }
  split; [done|].
  rewrite (toShellCommand_of_chain h h1 tasks fuel this (λ cmd, Return (added ++ cmd)));
    [|done|done].
  by destruct (cmd_array h tasks (S fuel) this).
Qed.

Lemma prepend_extends_chain_witness :
  toShellCommand (Task.prepend "before" TaskStepOptions.empty task_a chain_heap)
    chain_tasks 2 task_a =
    Return "(  ( before ) && ( first ) && ( ( (  ( inner ) ) ) ) && ( last ) )".
Proof.
  pose proof (prepend_extends_chain chain_heap chain_tasks 1 task_a "before"
                TaskStepOptions.empty chain_far) as H.
  cbv zeta in H. destruct H as [_ ->]. vm_compute. reflexivity.
Defined.

(** X3: [execTask(subtask, options)] binds by name: on such a task, and for
    a subtask with a non-empty name, the chain rendered before is followed
    by the [echo] of the step's name, if any, and by the grouped rendering
    of the task that the registry has under the subtask's name, whichever
    task that is; when the registry has none, the rendering throws once the
    steps before have rendered. *)
Theorem execTask_extends_chain h tasks fuel this sub options :
  (∀ u, tc (references h tasks) this u → Task._steps u ≠ Task._steps this) →
  Task.name sub ≠ EmptyString →
  let h1 := Task.execTask sub options this h in
  match Tasks.tryFind tasks (Task.name sub) with
  | Some B =>
      (∀ u, rtc (references h tasks) B u → Task._steps u ≠ Task._steps this) →
      cmd_array h1 tasks (S fuel) this =
        (cmd ← cmd_array h tasks (S fuel) this;
         sB ← toShellCommand h tasks fuel B;
         Return (cmd ++ echo (TaskStepOptions.name options) ++ [group sB]))
  | None =>
      cmd_array h1 tasks (S fuel) this =
        (cmd ← cmd_array h tasks (S fuel) this;
         Error ("unable to resolve subtask " +:+ Task.name sub))
  end.
Proof.
  intros Hfar Hname h1. subst h1. unfold Task.execTask.
  set (step := {| TaskStep.name := TaskStepOptions.name options;
                  TaskStep.env := TaskStepOptions.env options;
                  TaskStep.exec := None;
                  TaskStep.execTask := Some (Task.name sub) |}).
  assert (truthy (TaskStep.execTask step) = Some (Task.name sub)) as Hn
    by by apply truthy_nonempty.
  destruct (Tasks.tryFind tasks (Task.name sub)) as [B|] eqn:HB.
  - intros HfarB. rewrite push_step_chain by done.
    destruct (cmd_array h tasks (S fuel) this) as [cmd| |]; [|done|done].
    cbn [mbind outcome_bind].
    destruct (step_commands_cases tasks
                (toShellCommand (set_arr (Task._steps this)
                                   (push step (arr h (Task._steps this))) h) tasks fuel)
                cmd step)
      as [[Hn' _]|[(n & Hn' & Hu & _)|(n & u & Hn' & Hu & ->)]]; try congruence.
    assert (n = Task.name sub) as -> by congruence.
    assert (u = B) as -> by congruence.
    rewrite (toShellCommand_frame h _ tasks fuel B).
    + by destruct (toShellCommand h tasks fuel B).
    + intros v Hv. split; [|done]. apply arr_set_arr_ne. intros Heq.
      by apply (HfarB v).
  - rewrite push_step_chain by done.
    destruct (cmd_array h tasks (S fuel) this) as [cmd| |]; [|done|done].
    cbn [mbind outcome_bind]. unfold step_commands. by rewrite Hn, HB.
Qed.

Lemma execTask_extends_chain_witness :
  cmd_array (Task.execTask (task_at "b" (Some "never read") 7) TaskStepOptions.empty
               task_a chain_heap) chain_tasks 2 task_a =
  Return ["first"; "( (  ( inner ) ) )"; "last"; "( (  ( inner ) ) )"].
Proof.
  pose proof (execTask_extends_chain chain_heap chain_tasks 1 task_a
                (task_at "b" (Some "never read") 7) TaskStepOptions.empty
                chain_far ltac:(discriminate)) as H.
  cbv zeta in H. change (Tasks.tryFind chain_tasks (Task.name (task_at "b" (Some "never read") 7)))
    with (Some task_b) in H. cbv iota beta in H.
  rewrite H; [vm_compute; reflexivity|].
  intros u Hu Heq. apply rtc_tc in Hu as [<-|Hu]; [done|].
  assert (u = task_b) as ->; [|done].
  clear Heq. revert Hu. generalize task_b at 1. intros t Hu.
  induction Hu as [t u Hr|t u v Hr _ IH]; [|done].
  by apply chain_references in Hr as [_ ?].
Defined.

(** ** [commit] *)

Lemma commit_command_nonempty message options :
  join " && " (Task.commit_commands message options) ≠ EmptyString.
Proof.
  unfold Task.commit_commands, push.
  destruct (truthy (CommitOptions.username options)),
    (truthy (CommitOptions.email options)); simpl; discriminate.
Qed.

(** X4: whatever the message and the options, [commit] adds exactly one
    step, and on a task that none of its subtasks shares its step array with
    that step adds exactly one command fragment to the chain rendered
    before (after the [echo] of its name, if any).  The fragment is never
    empty; it is the [&&]-join of the [git config user.name] command when
    the user name is a non-empty string, then the [git config user.email]
    command when the e-mail is a non-empty string, then the [git commit]
    command, which has [-a] unless [add] is [false]. *)
Theorem commit_adds_one_fragment h tasks fuel this message options :
  (∀ u, tc (references h tasks) this u → Task._steps u ≠ Task._steps this) →
  let h1 := Task.commit message options this h in
  let user :=
    match CommitOptions.username options with
    | Some (String a u) =>
        ["git config user.name " +:+ dquote +:+ String a u +:+ dquote]
    | _ => []
    end in
  let email :=
    match CommitOptions.email options with
    | Some (String a e) =>
        ["git config user.email " +:+ dquote +:+ String a e +:+ dquote]
    | _ => []
    end in
  let add :=
    match CommitOptions.add options with
    | Some false => EmptyString
    | _ => "-a"
    end in
  let fragment :=
    join " && "
      (user ++ email ++ ["git commit " +:+ add +:+ " -m " +:+ dquote +:+ message +:+ dquote]) in
  arr h1 (Task._steps this) =
    arr h (Task._steps this) ++
    [{| TaskStep.name := CommitOptions.name options;
        TaskStep.env := CommitOptions.env options;
        TaskStep.exec := Some fragment;
        TaskStep.execTask := None |}]
  ∧ fragment ≠ EmptyString
  ∧ cmd_array h1 tasks (S fuel) this =
    (cmd ← cmd_array h tasks (S fuel) this;
     Return (cmd ++ echo (CommitOptions.name options) ++ [fragment])).
Proof.
  intros Hfar h1 user email add fragment.
  assert (fragment = join " && " (Task.commit_commands message options)) as Hfragment.
  { subst fragment user email add. unfold Task.commit_commands, push.
    destruct (CommitOptions.username options) as [[|a u]|],
      (CommitOptions.email options) as [[|b e]|],
      (CommitOptions.add options) as [[|]|]; reflexivity. }
  split; [|split].
  - subst h1. unfold Task.commit. by rewrite exec_steps, Hfragment.
  - rewrite Hfragment. apply commit_command_nonempty.
  - rewrite Hfragment.
    subst h1. unfold Task.commit, Task.exec. rewrite push_step_chain by done.
    destruct (cmd_array h tasks (S fuel) this) as [cmd| |]; [|done|done].
    cbn [mbind outcome_bind]. unfold step_commands.
    cbn [TaskStep.name TaskStep.exec TaskStep.execTask].
    rewrite (truthy_nonempty _ (commit_command_nonempty message options)).
    cbn [truthy]. unfold echo, push. cbn [CommitOptions.step_options TaskStepOptions.name].
    destruct (truthy (CommitOptions.name options)); simpl; by rewrite <- ?app_assoc.
Qed.

Lemma commit_adds_one_fragment_witness :
  cmd_array (Task.commit "release" (CommitOptions.mk None None (Some "bot") None (Some false))
               task_a chain_heap) chain_tasks 2 task_a =
  Return ["first"; "( (  ( inner ) ) )"; "last";
          "git config user.name " +:+ dquote +:+ "bot" +:+ dquote +:+
          " && git commit  -m " +:+ dquote +:+ "release" +:+ dquote].
Proof.
  pose proof (commit_adds_one_fragment chain_heap chain_tasks 1 task_a "release"
                (CommitOptions.mk None None (Some "bot") None (Some false)) chain_far) as H.
  cbv zeta in H. destruct H as (_ & _ & ->). vm_compute. reflexivity.
Defined.

(** ** Rendering *)

Lemma for_of_without_subtasks tasks render steps :
  Forall (λ step, truthy (TaskStep.execTask step) = None) steps →
  for_of (step_commands tasks render) [] steps =
  Return (concat ((λ step, echo (TaskStep.name step) ++ command (TaskStep.exec step)) <$> steps)).
Proof.
  induction 1 as [|step steps Hn _ IH]; [done|]. cbn [for_of].
  destruct (step_commands_cases tasks render [] step)
    as [[_ ->]|[(n & Hn' & _)|(n & u & Hn' & _)]]; [|congruence|congruence].
  cbn [mbind outcome_bind]. rewrite for_of_acc, IH. done.
Qed.

Lemma render_without_subtasks_aux h tasks fuel this :
  Forall (λ step, truthy (TaskStep.execTask step) = None) (arr h (Task._steps this)) →
  toShellCommand h tasks (S fuel) this =
  Return ("( " +:+ join EmptyString (lines h tasks this) +:+ " " +:+
          withCondition this
            (concat ((λ step, echo (TaskStep.name step) ++ command (TaskStep.exec step))
                       <$> arr h (Task._steps this))) +:+ " )").
Proof.
  intros Hsteps. cbn [toShellCommand].
  by rewrite (for_of_without_subtasks _ _ _ Hsteps).
Qed.

(** X5: a task without subtask steps renders at once, whatever the
    registry: the call returns, and the chain has, step after step, the
    [echo] of the step's name when it has a non-empty one and then its
    command when it is not empty; a task without steps renders an empty
    chain. *)
Theorem render_without_subtasks h tasks fuel this :
  Forall (λ step, truthy (TaskStep.execTask step) = None) (arr h (Task._steps this)) →
  toShellCommand h tasks (S fuel) this =
  Return ("( " +:+ join EmptyString (lines h tasks this) +:+ " " +:+
          withCondition this
            (concat ((λ step, echo (TaskStep.name step) ++ command (TaskStep.exec step))
                       <$> arr h (Task._steps this))) +:+ " )").
Proof. apply render_without_subtasks_aux. Qed.

Lemma render_without_subtasks_witness :
  toShellCommand
    (heap_of [(0, [TaskStep.mk (Some "build") None (Some "tsc") None;
                   inline EmptyString;
                   TaskStep.mk (Some "done") None None None])] [])
    chain_tasks 1 (task_at "t" (Some "test -d src") 0) =
  Return "(  ! ( test -d src ) || ( ( echo build ) && ( tsc ) && ( echo done ) ) )".
Proof.
  rewrite (render_without_subtasks
             (heap_of [(0, [TaskStep.mk (Some "build") None (Some "tsc") None;
                            inline EmptyString;
                            TaskStep.mk (Some "done") None None None])] [])
             chain_tasks 0 (task_at "t" (Some "test -d src") 0)).
  - vm_compute. reflexivity.
  - repeat constructor.
Defined.

(** X6: a rendering depends on a task only through its steps, its
    environment and its condition, and on the condition only as far as it is
    a non-empty string: the name, the description and the category never
    matter, and an empty condition is no condition. *)
Theorem render_reads_steps_env_condition h tasks fuel this that :
  Task._steps this = Task._steps that →
  Task._env this = Task._env that →
  truthy (Task.condition this) = truthy (Task.condition that) →
  toShellCommand h tasks fuel this = toShellCommand h tasks fuel that.
Proof.
  intros Hs He Hc. destruct fuel as [|fuel]; [done|].
  cbn [toShellCommand]. unfold lines, merged_env, withCondition.
  by rewrite Hs, He, Hc.
Qed.

Lemma render_reads_steps_env_condition_witness :
  toShellCommand chain_heap chain_tasks 2
    (Task.mk "other" (Some "described") (Some RELEASE) (Some EmptyString) 0 0) =
  toShellCommand chain_heap chain_tasks 2 task_a.
Proof.
  exact (render_reads_steps_env_condition chain_heap chain_tasks 2
           (Task.mk "other" (Some "described") (Some RELEASE) (Some EmptyString) 0 0)
           task_a eq_refl eq_refl eq_refl).
Defined.

(** *** Which tasks render *)

Lemma Return_rtc h tasks this u :
  rtc (references h tasks) this u →
  ∀ fuel s, toShellCommand h tasks fuel this = Return s →
    ∃ fuel' s', toShellCommand h tasks fuel' u = Return s'.
Proof.
  induction 1 as [t|t u v Hr _ IH]; intros fuel s Hs; [by exists fuel, s|].
  destruct fuel as [|fuel]; [done|].
  destruct (Return_references h tasks fuel t s u Hs Hr) as [s' Hs']. by eapply IH.
Qed.

(** X7: in a task graph without a cycle, [toShellCommand] returns a string
    exactly for the tasks from which every reference that can be reached
    resolves, and throws for the others. *)
Theorem returns_iff_resolvable h tasks this :
  Irreflexive (tc (references h tasks)) →
  ((∃ fuel s, toShellCommand h tasks fuel this = Return s) ↔ resolvable h tasks this)
  ∧ ((∃ fuel msg, toShellCommand h tasks fuel this = Error msg) ↔ ¬ resolvable h tasks this).
Proof.
  intros Hirr.
  assert ((∃ fuel s, toShellCommand h tasks fuel this = Return s) → resolvable h tasks this)
    as Hret.
  { intros (fuel & s & Hs) u n Hreach Hun.
    destruct (Return_rtc h tasks this u Hreach fuel s Hs) as (fuel' & s' & Hs').
    by eapply unresolved_never_returns. }
  destruct (sn_terminates h tasks this (acyclic_sn h tasks this Hirr)) as [fuel Hfuel].
  split; split.
  - done.
  - intros Hres. destruct (resolvable_renders h tasks this) as (f & s & Hs);
      [by apply acyclic_sn|done|]. by exists (S f), s.
  - intros (f & msg & Herr) Hres. by eapply resolvable_never_throws.
  - intros Hnres. destruct (toShellCommand h tasks fuel this) as [s|msg|] eqn:Hout.
    + destruct Hnres. apply Hret. by exists fuel, s.
    + by exists fuel, msg.
    + by destruct (Hfuel fuel).
Qed.

Lemma returns_iff_resolvable_witness :
  ∃ fuel s, toShellCommand chain_heap chain_tasks fuel task_a = Return s.
Proof.
  exact (proj2 (proj1 (returns_iff_resolvable chain_heap chain_tasks task_a chain_acyclic))
           chain_resolvable).
Defined.

(** *** The depth of the recursion *)

Lemma names_bound (m : gmap string Task.t) (L : list string) :
  NoDup L → (∀ n, n ∈ L → is_Some (m !! n)) → length L ≤ size m.
Proof.
  intros Hnd Hin. rewrite <- (size_dom (D := gset string)).
  rewrite <- (size_list_to_set (C := gset string) L) by done.
  apply subseteq_size. intros n Hn%elem_of_list_to_set. apply elem_of_dom. auto.
Qed.

(** The names in [L] are those under which the calls that are running were
    found: without a cycle they are distinct. *)
Lemma render_bounded h tasks :
  Irreflexive (tc (references h tasks)) →
  ∀ fuel L u, NoDup L →
    (∀ m, m ∈ L → ∃ w, Tasks.tryFind tasks m = Some w ∧ rtc (references h tasks) w u) →
    size (Tasks._tasks tasks) < fuel + length L →
    toShellCommand h tasks fuel u ≠ OutOfFuel.
Proof.
  intros Hirr. induction fuel as [|fuel IH]; intros L u Hnd HL Hsize.
  - assert (length L ≤ size (Tasks._tasks tasks)); [|lia].
    apply names_bound; [done|]. intros n Hn. destruct (HL n Hn) as (w & Hw & _).
    by exists w.
  - rewrite toShellCommand_OutOfFuel. unfold cmd_array.
    intros (step & n & v & Hin & Hn & Hv & Hout)%for_of_OutOfFuel.
    assert (references h tasks u v) as Huv by by exists step, n.
    apply (IH (n :: L) v); [| |simpl; lia|done].
    + apply NoDup_cons. split; [|done]. intros Hmem.
      destruct (HL n Hmem) as (w & Hw & Hreach).
      assert (w = v) as -> by (unfold Tasks.tryFind in *; congruence).
      apply (Hirr v). eapply tc_rtc_l; [done|]. by apply tc_once.
    + intros m [->|Hm]%elem_of_cons.
      * by exists v.
      * destruct (HL m Hm) as (w & Hw & Hreach). exists w. split; [done|].
        eapply rtc_r; done.
Qed.

(** X8: in a task graph without a cycle the calls of [toShellCommand] are
    never nested deeper than the number of registered tasks plus one: a
    budget above the number of registered tasks is enough for every task. *)
Theorem render_depth_bound h tasks this fuel :
  Irreflexive (tc (references h tasks)) →
  size (Tasks._tasks tasks) < fuel →
  toShellCommand h tasks fuel this ≠ OutOfFuel.
Proof.
  intros Hirr Hsize. apply (render_bounded h tasks Hirr fuel [] this).
  - apply NoDup_nil_2.
  - intros m Hm. by apply elem_of_nil in Hm.
  - simpl. lia.
Qed.

Lemma render_depth_bound_witness :
  size (Tasks._tasks chain_tasks) = 2 ∧
  toShellCommand chain_heap chain_tasks 3 task_a ≠ OutOfFuel.
Proof.
  split; [reflexivity|].
  apply (render_depth_bound chain_heap chain_tasks task_a 3 chain_acyclic).
  vm_compute. lia.
Defined.

(** ** The constructor *)

Lemma new_fields nm props h :
  Task.name (Task.new nm props h).1 = nm ∧
  Task.condition (Task.new nm props h).1 = opt_condition props ∧
  Task._steps (Task.new nm props h).1 = fresh (dom (arrays h)) ∧
  Task._env (Task.new nm props h).1 =
    match opt_env props with Some e => e | None => fresh (dom (objects h)) end.
Proof.
  unfold Task.new, alloc_obj, alloc_arr.
  destruct (opt_env props), (truthy (opt_exec props)); done.
Qed.

Lemma new_arrays nm props h :
  arrays (Task.new nm props h).2 =
  <[fresh (dom (arrays h)) := inline <$> command (opt_exec props)]> (arrays h).
Proof.
  unfold Task.new, alloc_obj, alloc_arr, command, Task.exec, push, set_arr, arr.
  destruct (opt_env props), (truthy (opt_exec props)); simpl;
    rewrite ?lookup_insert_eq, ?insert_insert_eq; done.
Qed.

Lemma new_objects nm props h :
  objects (Task.new nm props h).2 =
  match opt_env props with
  | Some e => objects h
  | None => <[fresh (dom (objects h)) := []]> (objects h)
  end.
Proof.
  unfold Task.new, alloc_obj, alloc_arr.
  destruct (opt_env props), (truthy (opt_exec props)); simpl; done.
Qed.

(** X9: the constructor gives the task a step array of its own, which no
    task made before has and which holds the inline step of [props.exec]
    when that is a non-empty string and nothing otherwise; no array that
    existed is changed; the environment is the object of [props.env] itself
    when there is one and a new empty object otherwise; and the new task
    renders at once, to its seed command alone. *)
Theorem new_task_is_fresh nm props h tasks fuel :
  let this := (Task.new nm props h).1 in
  let h1 := (Task.new nm props h).2 in
  (Task._steps this ∉ dom (arrays h))
  ∧ arr h1 (Task._steps this) = inline <$> command (opt_exec props)
  ∧ (∀ l, l ∈ dom (arrays h) → arr h1 l = arr h l)
  ∧ match opt_env props with
    | Some e => Task._env this = e ∧ objects h1 = objects h
    | None => (Task._env this ∉ dom (objects h)) ∧ obj h1 (Task._env this) = [] ∧
              ∀ l, l ∈ dom (objects h) → obj h1 l = obj h l
    end
  ∧ toShellCommand h1 tasks (S fuel) this =
    Return ("( " +:+ join EmptyString (lines h1 tasks this) +:+ " " +:+
            withCondition this (command (opt_exec props)) +:+ " )").
Proof.
  intros this h1.
  destruct (new_fields nm props h) as (_ & _ & Hs & He).
  pose proof (new_arrays nm props h) as Harr.
  pose proof (new_objects nm props h) as Hobj.
  fold this in Hs, He. fold h1 in Harr, Hobj.
  assert (arr h1 (Task._steps this) = inline <$> command (opt_exec props)) as Hsteps.
  { unfold arr. by rewrite Harr, Hs, lookup_insert_eq. }
  split; [rewrite Hs; apply is_fresh|]. split; [done|]. split; [|split].
  - intros l Hl. unfold arr. rewrite Harr, lookup_insert_ne; [done|].
    intros <-. by apply (is_fresh (dom (arrays h))).
  - destruct (opt_env props) as [e|]; [done|].
    split; [rewrite He; apply is_fresh|]. split.
    + unfold obj. by rewrite Hobj, He, lookup_insert_eq.
    + intros l Hl. unfold obj. rewrite Hobj, lookup_insert_ne; [done|].
      intros <-. by apply (is_fresh (dom (objects h))).
  - rewrite render_without_subtasks_aux.
    + rewrite Hsteps. by destruct (opt_exec props) as [[|a c]|].
    + rewrite Hsteps. by destruct (opt_exec props) as [[|a c]|]; repeat constructor.
Qed.

(** ** The environment of a task *)

Lemma obj_define_twice k v v' (o : JsObject) :
  obj_define k v' (obj_define k v o) = obj_define k v' o.
Proof.
  induction o as [|[k0 v0] o IH]; simpl.
  - by rewrite decide_True.
  - destruct (decide (k0 = k)) as [->|Hne]; simpl.
    + by rewrite decide_True.
    + by rewrite decide_False, IH.
Qed.

Lemma env_defines k v this h :
  k ≠ "__proto__" ∨ obj_get k (obj h (Task._env this)) ≠ None ∨ Task._env this ∈ bare h →
  Task.env k v this h =
  set_obj (Task._env this) (obj_define k v (obj h (Task._env this))) h.
Proof.
  intros Hk. unfold Task.env. rewrite decide_False; [done|].
  intros (? & ? & ?). by destruct Hk as [?|[?|?]].
Qed.

Lemma obj_set_obj_eq l o h : obj (set_obj l o h) l = o.
Proof. unfold obj, set_obj; simpl. by rewrite lookup_insert_eq. Qed.

Lemma env_object k v this h :
  k ≠ "__proto__" →
  obj (Task.env k v this h) (Task._env this) = obj_define k v (obj h (Task._env this)).
Proof. intros Hk. rewrite env_defines by by left. apply obj_set_obj_eq. Qed.

(** X10: [env(k, v)] makes [v] the value of [k] in the environment of the
    task, whether [k] was there or not, for every key other than
    [__proto__], and for [__proto__] too when the object has a property of
    that name or has no prototype; the other keys keep their values, an
    environment with one entry per key still has one entry per key, no step
    array and no other object is changed, and of two successive calls for
    the same key only the second counts.  For the key [__proto__], on an
    object with the ordinary prototype and without a property of that name,
    the call changes nothing. *)
Theorem env_sets_variable k v this h :
  k ≠ "__proto__" ∨ obj_get k (obj h (Task._env this)) ≠ None ∨ Task._env this ∈ bare h →
  let h1 := Task.env k v this h in
  obj_get k (obj h1 (Task._env this)) = Some v
  ∧ (∀ k', k' ≠ k → obj_get k' (obj h1 (Task._env this)) = obj_get k' (obj h (Task._env this)))
  ∧ (obj_wf (obj h (Task._env this)) → obj_wf (obj h1 (Task._env this)))
  ∧ arrays h1 = arrays h
  ∧ (∀ l, l ≠ Task._env this → obj h1 l = obj h l)
  ∧ (∀ v', Task.env k v' this h1 = Task.env k v' this h)
  ∧ (∀ h', obj_get "__proto__" (obj h' (Task._env this)) = None →
           Task._env this ∉ bare h' →
           Task.env "__proto__" v this h' = h').
Proof.
  intros Hk h1. subst h1. rewrite env_defines by done. rewrite obj_set_obj_eq.
  assert (obj_get k (obj_define k v (obj h (Task._env this))) = Some v) as Hget
    by by rewrite obj_get_define, decide_True.
  split; [done|].
  split; [intros k' Hk'; rewrite obj_get_define; by rewrite decide_False|].
  split; [apply obj_define_wf|].
  split; [done|].
  split.
  { intros l Hl. unfold obj, set_obj; simpl. by rewrite lookup_insert_ne. }
  split.
  - intros v'. rewrite !env_defines; [|done|].
    + rewrite obj_set_obj_eq, obj_define_twice.
      unfold set_obj; simpl. by rewrite insert_insert_eq.
    + right. left. rewrite obj_set_obj_eq. congruence.
  - intros h' Hnone Hord. unfold Task.env. by rewrite decide_True.
Qed.

Lemma env_sets_variable_witness :
  let h := heap_of [] [(0, [("A", "1"); ("B", "2")])] in
  obj (Task.env "A" "3" (task_at "t" None 0) h) 0 = [("A", "3"); ("B", "2")] ∧
  obj_get "A" (obj (Task.env "A" "3" (task_at "t" None 0) h) 0) = Some "3".
Proof.
  split; [vm_compute; reflexivity|].
  apply (env_sets_variable "A" "3" (task_at "t" None 0)
           (heap_of [] [(0, [("A", "1"); ("B", "2")])])).
  left. discriminate.
Defined.

(** The three cases of an assignment to the key [__proto__]: ignored on an
    ordinary object, an overwrite where the object has the property, a new
    property on an object without prototype. *)
Example env_proto_cases :
  let this := task_at "t" None 0 in
  let plain := heap_of [] [(0, [("A", "1")])] in
  let own := heap_of [] [(0, [("__proto__", "old"); ("A", "1")])] in
  let bare_env := {| arrays := ∅; objects := {[ 0 := [("A", "1")] ]}; bare := {[ 0 ]} |} in
  obj (Task.env "__proto__" "x" this plain) 0 = [("A", "1")] ∧
  obj (Task.env "__proto__" "x" this own) 0 = [("__proto__", "x"); ("A", "1")] ∧
  obj (Task.env "__proto__" "x" this bare_env) 0 = [("A", "1"); ("__proto__", "x")].
Proof. vm_compute. repeat split. Qed.

Lemma env_assigned h tasks this k v :
  k ≠ "__proto__" →
  obj_wf (Tasks.env tasks) → obj_wf (obj h (Task._env this)) →
  assignment (k, v) ∈ lines (Task.env k v this h) tasks this.
Proof.
  intros Hk Hbase Hown. unfold lines. apply list_elem_of_fmap_2.
  apply merged_env_elem_of; [done| |].
  - rewrite env_object by done. by apply obj_define_wf.
  - left. rewrite env_object by done. by rewrite obj_get_define, decide_True.
Qed.

(** X11: after [env(k, v)], for a key other than [__proto__], a rendering
    of the task assigns [v] to [k], by one assignment and whatever the
    registry gives to [k]; the assignments of the other names are those of
    before. *)
Theorem env_then_assignment h tasks this k v :
  k ≠ "__proto__" →
  obj_wf (Tasks.env tasks) → obj_wf (obj h (Task._env this)) →
  let h1 := Task.env k v this h in
  assignment (k, v) ∈ lines h1 tasks this
  ∧ (∀ v', (k, v') ∈ entries (merged_env h1 tasks this) → v' = v)
  ∧ NoDup (entries (merged_env h1 tasks this)).*1
  ∧ (∀ k' v', k' ≠ k →
       (k', v') ∈ entries (merged_env h1 tasks this) ↔
       (k', v') ∈ entries (merged_env h tasks this)).
Proof.
  intros Hk Hbase Hown h1.
  assert (obj_wf (obj h1 (Task._env this))) as Hown1.
  { subst h1. rewrite env_object by done. by apply obj_define_wf. }
  assert (∀ k', obj_get k' (obj h1 (Task._env this)) =
                if decide (k = k') then Some v else obj_get k' (obj h (Task._env this)))
    as Hget.
  { intros k'. subst h1. rewrite env_object by done. apply obj_get_define. }
  assert ((k, v) ∈ entries (merged_env h1 tasks this)) as Hin.
  { apply merged_env_elem_of; [done|done|]. left. by rewrite Hget, decide_True. }
  split; [unfold lines; by apply list_elem_of_fmap_2|].
  split; [|split].
  - intros v' Hv'. apply merged_env_elem_of in Hv'; [|done|done].
    rewrite Hget, decide_True in Hv' by done. by destruct Hv' as [[= ->]|[[=] _]].
  - apply entries_wf, merged_env_wf.
  - intros k' v' Hk'. rewrite !merged_env_elem_of by done.
    by rewrite Hget, decide_False.
Qed.

Lemma env_then_assignment_witness :
  let h := heap_of [(0, [inline "run"])] [(0, [("A", "1")])] in
  let tasks := {| Tasks._tasks := ∅; Tasks.env := [("B", "base"); ("A", "0")] |} in
  assignment ("B", "mine") ∈ lines (Task.env "B" "mine" (task_at "t" None 0) h) tasks
                                   (task_at "t" None 0).
Proof.
  intros h tasks.
  apply (env_then_assignment h tasks (task_at "t" None 0) "B" "mine").
  - discriminate.
  - unfold obj_wf. apply (bool_decide_unpack _). vm_compute. reflexivity.
  - unfold obj_wf. apply (bool_decide_unpack _). vm_compute. reflexivity.
Defined.

Lemma render_lines_env h tasks this that :
  Task._env this = Task._env that → lines h tasks this = lines h tasks that.
Proof. intros He. unfold lines, merged_env. by rewrite He. Qed.

(** X12: two tasks constructed with the same [props.env] object share it:
    a variable set by [env] on the one is a variable of the other, and is
    assigned by the renderings of the other. *)
Theorem new_tasks_share_env n1 n2 p1 p2 e k v h tasks :
  opt_env p1 = Some e → opt_env p2 = Some e → k ≠ "__proto__" →
  obj_wf (Tasks.env tasks) → obj_wf (obj h e) →
  let t1 := (Task.new n1 p1 h).1 in
  let h1 := (Task.new n1 p1 h).2 in
  let t2 := (Task.new n2 p2 h1).1 in
  let h2 := (Task.new n2 p2 h1).2 in
  let h3 := Task.env k v t1 h2 in
  Task._env t1 = e ∧ Task._env t2 = e
  ∧ Task._steps t1 ≠ Task._steps t2
  ∧ obj_get k (obj h3 (Task._env t2)) = Some v
  ∧ assignment (k, v) ∈ lines h3 tasks t2.
Proof.
  intros Hp1 Hp2 Hk Hbase Hown t1 h1 t2 h2 h3.
  destruct (new_fields n1 p1 h) as (_ & _ & Hs1 & He1).
  destruct (new_fields n2 p2 h1) as (_ & _ & Hs2 & He2).
  fold t1 in Hs1, He1. fold t2 in Hs2, He2. rewrite Hp1 in He1. rewrite Hp2 in He2.
  pose proof (new_objects n1 p1 h) as Ho1. pose proof (new_objects n2 p2 h1) as Ho2.
  fold h1 in Ho1. fold h2 in Ho2. rewrite Hp1 in Ho1. rewrite Hp2 in Ho2.
  assert (obj h2 e = obj h e) as Hobj by (unfold obj; by rewrite Ho2, Ho1).
  split; [done|]. split; [done|]. split.
  { rewrite Hs1, Hs2. intros Heq.
    apply (is_fresh (dom (arrays h1))). rewrite <- Heq.
    unfold h1. rewrite new_arrays, dom_insert. set_solver. }
  assert (Task._env t2 = Task._env t1) as Hshare by congruence.
  split.
  - rewrite Hshare. subst h3. rewrite env_object by done.
    by rewrite obj_get_define, decide_True.
  - rewrite (render_lines_env h3 tasks t2 t1 Hshare).
    apply env_assigned; [done|done|].
    by rewrite He1, Hobj.
Qed.

Lemma new_tasks_share_env_witness :
  let h := heap_of [] [(5, [("A", "1")])] in
  let props := {| opt_image := None; opt_description := None; opt_category := None;
                  opt_env := Some 5; opt_condition := None; opt_exec := Some "run" |} in
  let t1 := (Task.new "one" props h).1 in
  let h1 := (Task.new "one" props h).2 in
  let t2 := (Task.new "two" props h1).1 in
  let h2 := (Task.new "two" props h1).2 in
  assignment ("K", "v") ∈ lines (Task.env "K" "v" t1 h2) no_tasks t2.
Proof.
  intros h props t1 h1 t2 h2.
  apply (new_tasks_share_env "one" "two" props props 5 "K" "v" h no_tasks
           eq_refl eq_refl ltac:(discriminate)).
  - unfold obj_wf. apply (bool_decide_unpack _). vm_compute. reflexivity.
  - unfold obj_wf. apply (bool_decide_unpack _). vm_compute. reflexivity.
Defined.

(** ** Sequences of calls *)

Lemma render_exec_sequence_witness :
  let this := task_at "t" None 0 in
  let h1 := foldl (λ h c, Task.exec c TaskStepOptions.empty this h)
              (Task.reset None this chain_heap) ["one"; "two"] in
  toShellCommand h1 chain_tasks 1 this = Return "(  ( one ) && ( two ) )".
Proof.
  intros this h1. subst h1.
  rewrite (render_exec_sequence chain_heap chain_tasks 0 this ["one"; "two"] eq_refl).
  - vm_compute. reflexivity.
  - repeat constructor; discriminate.
Defined.

Lemma run_arrays this h c l :
  l ≠ Task._steps this → arr (run this h c) l = arr h l.
Proof.
  intros Hl. destruct c as [command| | | |k v|]; simpl;
    unfold Task.reset, Task.commit, Task.exec, Task.prepend, Task.execTask, Task.env.
  - destruct (truthy command); unfold Task.exec; by rewrite ?arr_set_arr_ne.
  - by rewrite arr_set_arr_ne.
  - by rewrite arr_set_arr_ne.
  - by rewrite arr_set_arr_ne.
  - by destruct (decide _).
  - by rewrite arr_set_arr_ne.
Qed.

Lemma run_objects this h c l :
  l ≠ Task._env this → obj (run this h c) l = obj h l.
Proof.
  intros Hl. destruct c as [command| | | |k v|]; simpl;
    unfold Task.reset, Task.commit, Task.exec, Task.prepend, Task.execTask, Task.env;
    try done.
  - by destruct (truthy command).
  - destruct (decide _); [done|].
    unfold obj, set_obj; simpl. by rewrite lookup_insert_ne.
Qed.

Lemma foldl_run_arrays this calls h l :
  l ≠ Task._steps this → arr (foldl (run this) h calls) l = arr h l.
Proof.
  intros Hl. revert h. induction calls as [|c calls IH]; intros h; simpl; [done|].
  by rewrite IH, run_arrays.
Qed.

Lemma foldl_run_objects this calls h l :
  l ≠ Task._env this → obj (foldl (run this) h calls) l = obj h l.
Proof.
  intros Hl. revert h. induction calls as [|c calls IH]; intros h; simpl; [done|].
  by rewrite IH, run_objects.
Qed.

(** X14: the array that [steps] returned is a snapshot: whatever is called
    on the task afterwards ([reset], [exec], [prepend], [execTask], [env],
    [commit]), it keeps the steps of the time of the call. *)
Theorem steps_copy_is_a_snapshot h this calls :
  Task._steps this ∈ dom (arrays h) →
  let r := (Task.steps this h).1 in
  let h1 := (Task.steps this h).2 in
  arr (foldl (run this) h1 calls) r = arr h (Task._steps this).
Proof.
  intros Hthis r h1. subst r h1. rewrite foldl_run_arrays.
  - apply steps_contents.
  - intros Heq. apply (steps_fresh this h). by rewrite Heq.
Qed.

Lemma steps_copy_is_a_snapshot_witness :
  let r := (Task.steps task_a chain_heap).1 in
  let h1 := (Task.steps task_a chain_heap).2 in
  arr (foldl (run task_a) h1
         [CallReset (Some "again"); CallPrepend "zero" TaskStepOptions.empty]) r =
  [inline "first"; subtask "b"; inline "last"].
Proof.
  apply (steps_copy_is_a_snapshot chain_heap task_a
           [CallReset (Some "again"); CallPrepend "zero" TaskStepOptions.empty]).
  apply elem_of_dom. exists [inline "first"; subtask "b"; inline "last"]. reflexivity.
Defined.

(** X15: the methods of a task change its own step array and its own
    environment object only: a task that reaches neither of them, by itself
    or through its subtasks, renders after any sequence of such calls as it
    did before. *)
Theorem calls_leave_other_tasks h tasks fuel this that calls :
  (∀ u, rtc (references h tasks) that u →
        Task._steps u ≠ Task._steps this ∧ Task._env u ≠ Task._env this) →
  toShellCommand (foldl (run this) h calls) tasks fuel that =
  toShellCommand h tasks fuel that.
Proof.
  intros Hfar. apply toShellCommand_frame. intros u Hu.
  destruct (Hfar u Hu) as [Hs He].
  by rewrite foldl_run_arrays, foldl_run_objects.
Qed.

Lemma calls_leave_other_tasks_witness :
  toShellCommand
    (foldl (run task_a) chain_heap
       [CallReset None; CallExec "other" TaskStepOptions.empty; CallEnv "A" "1"])
    chain_tasks 2 task_b =
  toShellCommand chain_heap chain_tasks 2 task_b.
Proof.
  apply (calls_leave_other_tasks chain_heap chain_tasks 2 task_a task_b).
  intros u Hu. assert (u = task_b) as ->; [|done].
  apply rtc_tc in Hu as [<-|Hu]; [done|]. revert Hu. generalize task_b at 1.
  intros t Hu. induction Hu as [t u Hr|t u v Hr _ IH]; [|done].
  by apply chain_references in Hr as [_ ?].
Defined.
